(** * NBA API: the request handlers of [main.py]

    A shallow embedding of the query handlers and of the chat relay of
    [main.py], and the properties of their specification.

    Conventions of the embedding.
    - Python [str] is [string]: an ASCII text is the string of its
      characters, any other text the string of the bytes of its UTF-8
      form.  Equality, concatenation, truthiness and [in] go through that
      form unchanged.
    - [str.lower()] and [str.upper()] are built-ins of the runtime, with
      the case tables of Unicode behind them; the handlers take them as
      the two methods of a [CaseMapping].  What the proofs need of them is
      listed in [CaseLaws].  The case mapping of the ASCII letters alone is
      [ascii_case]; it is the mapping of the examples.
    - Python [int] is [Z].
    - The tables [team_data], [standings_data_eastern],
      [standings_data_western] and [games_data] are imported by [main.py]
      from modules of pure data; they are the fields of a record [Tables]
      over which every handler is parameterised.
    - A handler either returns a body or raises [HTTPException]; both
      outcomes are the two constructors of [Response].
    - A [for] loop that appends to a result list is a [fold_left] whose
      accumulator is that list. *)

From Stdlib Require Import ZArith List Bool Ascii String Lia.
From Stdlib Require Import Numbers.DecimalString.
Import ListNotations.

Local Open Scope string_scope.
Local Open Scope Z_scope.

(** ** Text *)

Module Text.

(** The lower-case form of an ASCII letter: 'A'..'Z' move up by 32, every
    other character stays. *)
Definition lower_char (c : ascii) : ascii :=
  let n := N_of_ascii c in
  if ((65 <=? n) && (n <=? 90))%N then ascii_of_N (n + 32) else c.

(** The upper-case form of an ASCII letter: 'a'..'z' move down by 32,
    every other character stays. *)
Definition upper_char (c : ascii) : ascii :=
  let n := N_of_ascii c in
  if ((97 <=? n) && (n <=? 122))%N then ascii_of_N (n - 32) else c.

(** The case mapping of the ASCII letters, to lower case: what
    [s.lower()] is for an ASCII text [s]. *)
Fixpoint ascii_lower (s : string) : string :=
  match s with
  | EmptyString => EmptyString
  | String c s' => String (lower_char c) (ascii_lower s')
  end.

(** The case mapping of the ASCII letters, to upper case: what
    [s.upper()] is for an ASCII text [s]. *)
Fixpoint ascii_upper (s : string) : string :=
  match s with
  | EmptyString => EmptyString
  | String c s' => String (upper_char c) (ascii_upper s')
  end.

(** [hay.startswith(needle)] *)
Fixpoint startswith (needle hay : string) : bool :=
  match needle, hay with
  | EmptyString, _ => true
  | String _ _, EmptyString => false
  | String a n', String b h' => Ascii.eqb a b && startswith n' h'
  end.

(** [needle in hay] on two [str]: [needle] occurs in [hay] as a contiguous
    block; the empty string occurs in every string. *)
Fixpoint contains (needle hay : string) : bool :=
  startswith needle hay
  || match hay with
     | EmptyString => false
     | String _ h' => contains needle h'
     end.

(** The truth value of a [str]: only the empty string is falsy. *)
Definition truthy (s : string) : bool :=
  match s with
  | EmptyString => false
  | String _ _ => true
  end.

(** [str(n)] for an [int]: the decimal numeral, with a leading minus sign
    for negative numbers. *)
Definition str_of_int (n : Z) : string :=
  NilZero.string_of_int (Z.to_int n).

(** *** Comparison up to the case of the ASCII letters, stated without a
    case mapping *)

(** Two characters are the same ASCII letter up to case, or the same
    character. *)
Definition same_char_nocase (a b : ascii) : bool :=
  Ascii.eqb a b
  || (Ascii.eqb (lower_char a) b && negb (Ascii.eqb (lower_char a) a))
  || (Ascii.eqb a (lower_char b) && negb (Ascii.eqb (lower_char b) b)).

(** Two strings are variants of each other in the case of their ASCII
    letters: same length, and position by position the same character up
    to case. *)
Fixpoint case_variant (a b : string) : bool :=
  match a, b with
  | EmptyString, EmptyString => true
  | String x a', String y b' => same_char_nocase x y && case_variant a' b'
  | _, _ => false
  end.

(** [needle] occurs in [hay] up to the case of the ASCII letters: some
    contiguous block of [hay] is a variant of [needle]. *)
Definition occurs_nocase (needle hay : string) : Prop :=
  exists pre mid post,
    hay = pre ++ mid ++ post /\ case_variant needle mid = true.

(** A byte that continues a character of a UTF-8 text: 128..191. *)
Definition is_continuation (c : ascii) : bool :=
  let n := N_of_ascii c in ((128 <=? n) && (n <=? 191))%N.

(** The characters of a text, each with the bytes of its UTF-8 form: a
    byte opens a character and the continuation bytes after it belong to
    it.  An ASCII text has one character per byte. *)
Fixpoint chars (s : string) : list string :=
  match s with
  | EmptyString => []
  | String c s' =>
      match chars s' with
      | String d first :: rest =>
          if is_continuation d then String c (String d first) :: rest
          else String c EmptyString :: String d first :: rest
      | rest => String c EmptyString :: rest
      end
  end.

(** [needle] occurs in [hay] as a contiguous block. *)
Definition occurs_in (needle hay : string) : Prop :=
  exists pre post, hay = pre ++ needle ++ post.

(** An ASCII text: every character is below 128. *)
Fixpoint is_ascii (s : string) : bool :=
  match s with
  | EmptyString => true
  | String c s' => (N_of_ascii c <? 128)%N && is_ascii s'
  end.

(** Every character, in code order. *)
Definition all_ascii : list ascii := map ascii_of_nat (seq 0 256).

End Text.

(** The two case methods of [str]: [s.lower()] and [s.upper()]. *)
Class CaseMapping : Type := mkCaseMapping {
  str_lower : string -> string;
  str_upper : string -> string
}.

(** The case mapping of the ASCII letters. *)
Definition ascii_case : CaseMapping :=
  mkCaseMapping Text.ascii_lower Text.ascii_upper.

(** What the proofs use of [str.lower()] and [str.upper()]: the empty
    text maps to itself, two texts that differ in the case of ASCII
    letters only map to the same text, and on an ASCII text the methods
    are the case mapping of the ASCII letters. *)
Record CaseLaws (cm : CaseMapping) : Prop := mkCaseLaws {
  lower_empty : str_lower EmptyString = EmptyString;
  upper_empty : str_upper EmptyString = EmptyString;
  lower_variant :
    forall a b, Text.case_variant a b = true -> str_lower a = str_lower b;
  upper_variant :
    forall a b, Text.case_variant a b = true -> str_upper a = str_upper b;
  lower_ascii :
    forall s, Text.is_ascii s = true -> str_lower s = Text.ascii_lower s;
  upper_ascii :
    forall s, Text.is_ascii s = true -> str_upper s = Text.ascii_upper s
}.

(** ** Responses *)

(** The outcome of a handler: the body it returns, or the [HTTPException]
    it raises. *)
Inductive Response (A : Type) : Type :=
| Ok (body : A)
| HTTPException (status_code : Z) (detail : string).

Arguments Ok {A} body.
Arguments HTTPException {A} status_code detail.

Definition is_status {A : Type} (code : Z) (r : Response A) : bool :=
  match r with
  | Ok _ => false
  | HTTPException c _ => c =? code
  end.

(** ** Data model (the pydantic models and the imported tables) *)

Record Player : Type := mkPlayer {
  player_name : string;
  position : string;
  height : string;
  weight : string;
  last_attended : string;
  country : string
}.

Record Team : Type := mkTeam {
  id : Z;
  name : string;
  roster : list Player
}.

(** [PCT] is a float in the source; no handler computes with it, it is
    carried as the text of its literal. *)
Record Standing : Type := mkStanding {
  Team_ : string;
  W : Z;
  L : Z;
  PCT : string;
  GB : string;
  L10 : string;
  Strk : string
}.

Record Game : Type := mkGame {
  team1 : string;
  team2 : string;
  date : string;
  location : string
}.

(** The four module-level tables of [main.py]. *)
Record Tables : Type := mkTables {
  team_data : list Team;
  standings_data_eastern : list Standing;
  standings_data_western : list Standing;
  games_data : list Game
}.

(** ** Query handlers *)

(** The entries of [GET /teams]: [{"id": ..., "name": ...}]. *)
Record TeamInfo : Type := mkTeamInfo {
  info_id : Z;
  info_name : string
}.

(** The body of [GET /teams/{team_id}/standing]:
    [{"team": ..., "standing": ...}]. *)
Record TeamStanding : Type := mkTeamStanding {
  ts_team : string;
  ts_standing : Standing
}.

(** One entry of the player search: [{"player": ..., "team": ...}]. *)
Record PlayerHit : Type := mkPlayerHit {
  hit_player : Player;
  hit_team : string
}.

(** The body of [GET /search/players]: [{"count": ..., "results": ...}]. *)
Record PlayerSearch : Type := mkPlayerSearch {
  count : Z;
  results : list PlayerHit
}.

(** [param and cond] for an optional query parameter, where [cond] reads
    the parameter: [None] and the empty string are falsy, and [cond] is
    evaluated only on a non-empty text. *)
Definition truthy_and (param : option string) (cond : string -> bool) : bool :=
  match param with
  | None => false
  | Some v => Text.truthy v && cond v
  end.

Section Handlers.

Context {cm : CaseMapping}.
Variable db : Tables.

(** [get_all_teams] *)
Definition get_all_teams : list TeamInfo :=
  map (fun team => mkTeamInfo (id team) (name team)) (team_data db).

(** [next((t for t in team_data if t["id"] == team_id), None)] *)
Definition team_with_id (team_id : Z) : option Team :=
  find (fun t => id t =? team_id) (team_data db).

(** [get_team_by_id] *)
Definition get_team_by_id (team_id : Z) : Response Team :=
  match team_with_id team_id with
  | None =>
      HTTPException 404
        ("Team with ID " ++ Text.str_of_int team_id ++ " not found")
  | Some team => Ok team
  end.

(** [get_team_by_name] *)
Definition get_team_by_name (team_name : string) : Response Team :=
  match find (fun t => String.eqb (str_lower (name t)) (str_lower team_name))
             (team_data db) with
  | None => HTTPException 404 ("Team '" ++ team_name ++ "' not found")
  | Some team => Ok team
  end.

(** [get_team_roster] *)
Definition get_team_roster (team_id : Z) : Response (list Player) :=
  match team_with_id team_id with
  | None =>
      HTTPException 404
        ("Team with ID " ++ Text.str_of_int team_id ++ " not found")
  | Some team => Ok (roster team)
  end.

(** [GET /standings/eastern] *)
Definition get_eastern_standings : list Standing :=
  standings_data_eastern db.

(** [GET /standings/western]; the source names this function
    [get_eastern_standings] a second time. *)
Definition get_western_standings : list Standing :=
  standings_data_western db.

(** [get_team_standing] *)
Definition get_team_standing (team_id : Z) : Response TeamStanding :=
  match team_with_id team_id with
  | None =>
      HTTPException 404
        ("Team with ID " ++ Text.str_of_int team_id ++ " not found")
  | Some team =>
      match find (fun s => String.eqb (Team_ s) (name team))
                 (standings_data_eastern db) with
      | None =>
          HTTPException 404 ("Standing data not found for " ++ name team)
      | Some standing => Ok (mkTeamStanding (name team) standing)
      end
  end.

(** The body of the inner loop of [search_players] up to the test of
    [match]: the flag starts [True] and each of the three [if] statements
    may clear it. *)
Definition player_match (name_ position_ country_ : option string)
    (player : Player) : bool :=
  let match_ := true in
  let match_ :=
    if truthy_and name_ (fun name_ =>
         negb (Text.contains (str_lower name_)
                             (str_lower (player_name player))))
    then false else match_ in
  let match_ :=
    if truthy_and position_ (fun position_ =>
         negb (Text.contains (str_upper position_)
                             (str_upper (position player))))
    then false else match_ in
  let match_ :=
    if truthy_and country_ (fun country_ =>
         negb (Text.contains (str_lower country_)
                             (str_lower (country player))))
    then false else match_ in
  match_.

(** The two nested loops of [search_players]: the list [results] after
    them. *)
Definition search_players_loop (name_ position_ country_ : option string)
    : list PlayerHit :=
  fold_left
    (fun results team =>
       fold_left
         (fun results player =>
            if player_match name_ position_ country_ player
            then (results ++ [mkPlayerHit player (name team)])%list
            else results)
         (roster team) results)
    (team_data db) [].

(** [search_players] *)
Definition search_players (name_ position_ country_ : option string)
    : Response PlayerSearch :=
  let results := search_players_loop name_ position_ country_ in
  match results with
  | [] => HTTPException 404 "No players found matching the criteria"
  | _ :: _ => Ok (mkPlayerSearch (Z.of_nat (List.length results)) results)
  end.

(** [get_all_games] *)
Definition get_all_games : list Game := games_data db.

(** The body of the loop of [search_games] up to the test of [match]. *)
Definition game_match (team date_ : option string) (game : Game) : bool :=
  let match_ := true in
  let match_ :=
    if truthy_and team (fun team =>
         negb (Text.contains (str_lower team)
                             (str_lower (team1 game)
                              ++ str_lower (team2 game))))
    then false else match_ in
  let match_ :=
    if truthy_and date_ (fun date_ => negb (String.eqb date_ (date game)))
    then false else match_ in
  match_.

(** The loop of [search_games]: the list [results] after it. *)
Definition search_games_loop (team date_ : option string) : list Game :=
  fold_left
    (fun results game =>
       if game_match team date_ game then (results ++ [game])%list else results)
    (games_data db) [].

(** [search_games] *)
Definition search_games (team date_ : option string) : Response (list Game) :=
  let results := search_games_loop team date_ in
  match results with
  | [] => HTTPException 404 "No games found matching the criteria"
  | _ :: _ => Ok results
  end.

End Handlers.

(** ** Chat relay: values, exceptions and the external service *)

(** The values that flow through the relay untyped: what the handler
    builds for the external client and what the client hands back.
    Dictionary keys are texts, as in JSON; a [PDict] lists its entries in
    insertion order and a lookup takes the first entry of a key.  A float
    is carried as the text of its literal.  [PObject cls attrs mapping] is
    an instance of the class named [cls] with instance attributes [attrs];
    [mapping] holds its entries when [cls] derives from [dict]. *)
#[local] Set Warnings "-register-all".
Inductive pyobj : Type :=
| PNone
| PBool (b : bool)
| PInt (n : Z)
| PFloat (literal : string)
| PStr (s : string)
| PList (items : list pyobj)
| PDict (entries : list (string * pyobj))
| PObject (cls : string) (attrs : list (string * pyobj))
          (mapping : option (list (string * pyobj))).

(** An instance of [Exception]: its class and the text [str(e)]. *)
Record Exception : Type := mkException {
  exc_class : string;
  exc_str : string
}.

(** The outcome of an expression: its value, or the exception raised. *)
Inductive Result (A : Type) : Type :=
| Value (a : A)
| Raised (e : Exception).

Arguments Value {A} a.
Arguments Raised {A} e.

Definition bind_result {A B : Type} (r : Result A) (k : A -> Result B)
    : Result B :=
  match r with
  | Value a => k a
  | Raised e => Raised e
  end.

Declare Scope result_scope.
Delimit Scope result_scope with result.
Notation "x <- r ;; k" := (bind_result r (fun x => k))
  (at level 61, r at next level, right associativity) : result_scope.

Module Py.

(** [type(o).__name__] *)
Definition type_name (o : pyobj) : string :=
  match o with
  | PNone => "NoneType"
  | PBool _ => "bool"
  | PInt _ => "int"
  | PFloat _ => "float"
  | PStr _ => "str"
  | PList _ => "list"
  | PDict _ => "dict"
  | PObject cls _ _ => cls
  end.

(** Lookup in a list of entries: the first entry of the key. *)
Fixpoint lookup (key : string) (entries : list (string * pyobj))
    : option pyobj :=
  match entries with
  | [] => None
  | (k, v) :: rest => if String.eqb k key then Some v else lookup key rest
  end.

(** [hasattr(o, attr)] for an attribute name that no built-in type
    defines (the relay asks for [choices], [message] and [content]). *)
Definition hasattr (o : pyobj) (attr : string) : bool :=
  match o with
  | PObject _ attrs _ =>
      match lookup attr attrs with Some _ => true | None => false end
  | _ => false
  end.

Definition AttributeError (o : pyobj) (attr : string) : Exception :=
  mkException "AttributeError"
    ("'" ++ type_name o ++ "' object has no attribute '" ++ attr ++ "'").

(** [o.attr], for the same attribute names. *)
Definition getattr (o : pyobj) (attr : string) : Result pyobj :=
  match o with
  | PObject _ attrs _ =>
      match lookup attr attrs with
      | Some v => Value v
      | None => Raised (AttributeError o attr)
      end
  | _ => Raised (AttributeError o attr)
  end.

(** [len(o)] *)
Definition len (o : pyobj) : Result Z :=
  match o with
  | PStr s => Value (Z.of_nat (List.length (Text.chars s)))
  | PList items => Value (Z.of_nat (List.length items))
  | PDict entries => Value (Z.of_nat (List.length entries))
  | PObject _ _ (Some entries) => Value (Z.of_nat (List.length entries))
  | _ =>
      Raised (mkException "TypeError"
                ("object of type '" ++ type_name o ++ "' has no len()"))
  end.

(** [isinstance(o, dict)] *)
Definition isinstance_dict (o : pyobj) : bool :=
  match o with
  | PDict _ => true
  | PObject _ _ (Some _) => true
  | _ => false
  end.

(** [key in o] for an [o] that is a [dict]. *)
Definition has_key (o : pyobj) (key : string) : bool :=
  match o with
  | PDict entries | PObject _ _ (Some entries) =>
      match lookup key entries with Some _ => true | None => false end
  | _ => false
  end.

(** The subscripts the relay uses: an integer position or a text key. *)
Inductive Subscript : Type :=
| AtIndex (i : Z)
| AtKey (k : string).

Definition not_subscriptable (o : pyobj) : Exception :=
  mkException "TypeError"
    ("'" ++ type_name o ++ "' object is not subscriptable").

(** [o[i]] on a sequence of length [n]: a negative [i] counts from the
    end; [pick] reads a position that is in range. *)
Definition at_position {A : Type} (kind : string) (n : nat) (i : Z)
    (pick : nat -> Result A) : Result A :=
  let j := if i <? 0 then i + Z.of_nat n else i in
  if (0 <=? j) && (j <? Z.of_nat n) then pick (Z.to_nat j)
  else Raised (mkException "IndexError" (kind ++ " index out of range")).

(** [o[sub]] *)
Definition getitem (o : pyobj) (sub : Subscript) : Result pyobj :=
  match o, sub with
  | PList items, AtIndex i =>
      at_position "list" (List.length items) i
        (fun j => Value (nth j items PNone))
  | PList _, AtKey _ =>
      Raised (mkException "TypeError"
                "list indices must be integers or slices, not str")
  | PStr s, AtIndex i =>
      at_position "string" (List.length (Text.chars s)) i
        (fun j => Value (PStr (nth j (Text.chars s) EmptyString)))
  | PStr _, AtKey _ =>
      Raised (mkException "TypeError"
                "string indices must be integers, not 'str'")
  | (PDict entries | PObject _ _ (Some entries)), AtKey k =>
      match lookup k entries with
      | Some v => Value v
      | None => Raised (mkException "KeyError" ("'" ++ k ++ "'"))
      end
  | (PDict _ | PObject _ _ (Some _)), AtIndex i =>
      Raised (mkException "KeyError" (Text.str_of_int i))
  | _, _ => Raised (not_subscriptable o)
  end.

End Py.

(** ** Chat relay: the handler *)

Record ChatMessage : Type := mkChatMessage {
  role : string;
  content : string
}.

Record ChatRequest : Type := mkChatRequest {
  messages : list ChatMessage
}.

Record ChatResponse : Type := mkChatResponse {
  response : string
}.

(** The calls that leave the process: reading the environment and the
    three entry points of the Watsonx client library. *)
Inductive Call : Type :=
| Getenv (key : string)
| NewCredentials (url api_key : pyobj)
| NewAPIClient (credentials : pyobj)
| NewModelInference (model_id : string) (api_client params : pyobj)
                    (project_id space_id : pyobj) (verify : bool)
| ModelChat (model : pyobj) (messages : list pyobj).

(** A computation of the handler: it returns, raises, or makes a call and
    goes on with the value the call returned. *)
Inductive Prog (A : Type) : Type :=
| Return (a : A)
| Raise (e : Exception)
| Invoke (c : Call) (k : pyobj -> Prog A).

Arguments Return {A} a.
Arguments Raise {A} e.
Arguments Invoke {A} c k.

Fixpoint bind_prog {A B : Type} (p : Prog A) (f : A -> Prog B) : Prog B :=
  match p with
  | Return a => f a
  | Raise e => Raise e
  | Invoke c k => Invoke c (fun v => bind_prog (k v) f)
  end.

Definition call (c : Call) : Prog pyobj := Invoke c Return.

Definition lift {A : Type} (r : Result A) : Prog A :=
  match r with
  | Value a => Return a
  | Raised e => Raise e
  end.

Declare Scope prog_scope.
Delimit Scope prog_scope with prog.
Notation "x <- p ;; k" := (bind_prog p (fun x => k))
  (at level 61, p at next level, right associativity) : prog_scope.

(** The world outside the process: how a call answers, given the calls
    made before it. *)
Definition World : Type := list Call -> Call -> Result pyobj.

(** Running a computation in a world, from the calls already made: the
    outcome and the calls made by then.  A call that raises ends the
    computation. *)
Fixpoint run {A : Type} (w : World) (made : list Call) (p : Prog A)
    : Result A * list Call :=
  match p with
  | Return a => (Value a, made)
  | Raise e => (Raised e, made)
  | Invoke c k =>
      match w made c with
      | Value v => run w (made ++ [c])%list (k v)
      | Raised e => (Raised e, (made ++ [c])%list)
      end
  end.

(** The message appended for one inbound message, if any: the three
    branches of the [if]/[elif] chain, and nothing when no branch
    matches. *)
Definition convert_message (msg : ChatMessage) : option pyobj :=
  if String.eqb (role msg) "system" then
    Some (PDict [("role", PStr "system"); ("content", PStr (content msg))])
  else if String.eqb (role msg) "user" then
    Some (PDict [("role", PStr "user");
                 ("content",
                  PList [PDict [("type", PStr "text");
                                ("text", PStr (content msg))]])])
  else if String.eqb (role msg) "assistant" then
    Some (PDict [("role", PStr "assistant"); ("content", PStr (content msg))])
  else None.

(** The loop over [request.messages]: the list [messages] after it. *)
Definition convert_messages (request : ChatRequest) : list pyobj :=
  fold_left
    (fun messages msg =>
       match convert_message msg with
       | Some m => (messages ++ [m])%list
       | None => messages
       end)
    (messages request) [].

Section Chat.

(** [str(o)]: the rendering of containers and instances is the
    runtime's. *)
Variable py_str : pyobj -> string.

(** What the [response: str] field of [ChatResponse] makes of a value
    that is not a [str]: a coerced text or a validation error, as the
    installed pydantic decides. *)
Variable validate_non_str : pyobj -> Result string.

(** The test of the first branch:
    [hasattr(response, 'choices') and len(response.choices) > 0]. *)
Definition has_choices (response : pyobj) : Result bool :=
  if Py.hasattr response "choices" then
    (choices <- Py.getattr response "choices" ;;
     n <- Py.len choices ;;
     Value (0 <? n))%result
  else Value false.

(** The test of the second branch:
    [isinstance(response, dict) and 'choices' in response]. *)
Definition is_choices_dict (response : pyobj) : bool :=
  Py.isinstance_dict response && Py.has_key response "choices".

(** [response.choices[0].message.content] *)
Definition content_by_attribute (response : pyobj) : Result pyobj :=
  (choices <- Py.getattr response "choices" ;;
   first <- Py.getitem choices (Py.AtIndex 0) ;;
   message <- Py.getattr first "message" ;;
   Py.getattr message "content")%result.

(** [response['choices'][0]['message']['content']] *)
Definition content_by_key (response : pyobj) : Result pyobj :=
  (choices <- Py.getitem response (Py.AtKey "choices") ;;
   first <- Py.getitem choices (Py.AtIndex 0) ;;
   message <- Py.getitem first (Py.AtKey "message") ;;
   Py.getitem message (Py.AtKey "content"))%result.

(** The [if]/[elif]/[else] that sets [response_text]. *)
Definition extract_text (response : pyobj) : Result pyobj :=
  (first_branch <- has_choices response ;;
   if first_branch : bool then content_by_attribute response
   else if is_choices_dict response then content_by_key response
   else Value (PStr (py_str response)))%result.

(** [ChatResponse(response=response_text)] *)
Definition make_ChatResponse (response_text : pyobj) : Result ChatResponse :=
  match response_text with
  | PStr s => Value (mkChatResponse s)
  | other =>
      (s <- validate_non_str other ;; Value (mkChatResponse s))%result
  end.

(** [get_watsonx_client] *)
Definition get_watsonx_client : Prog pyobj :=
  (url <- call (Getenv "WATSONX_URL") ;;
   api_key <- call (Getenv "WATSONX_API_KEY") ;;
   credentials <- call (NewCredentials url api_key) ;;
   call (NewAPIClient credentials))%prog.

(** The body of the [try] block of [chat]. *)
Definition chat_try (request : ChatRequest) : Prog ChatResponse :=
  (client <- get_watsonx_client ;;
   let params :=
     PDict [("max_tokens", PInt 500); ("temperature", PFloat "0.7")] in
   project_id <- call (Getenv "WATSONX_PROJECT_ID") ;;
   model <- call (NewModelInference "ibm/granite-3-8b-instruct" client params
                                    project_id PNone false) ;;
   let messages := convert_messages request in
   response <- call (ModelChat model messages) ;;
   response_text <- lift (extract_text response) ;;
   lift (make_ChatResponse response_text))%prog.

(** [chat]: the [try] block, and the [except Exception] clause that turns
    an exception into the 500 response.  The second component lists the
    calls the handler made. *)
Definition chat (w : World) (request : ChatRequest)
    : Response ChatResponse * list Call :=
  match run w [] (chat_try request) with
  | (Value r, made) => (Ok r, made)
  | (Raised e, made) =>
      (HTTPException 500 ("Chat error: " ++ exc_str e), made)
  end.

End Chat.

(** ** Vocabulary of the specification *)

(** The players a search is drawn from: every team's roster in table
    order, each player paired with the team's name. *)
Definition hits_of (keep : Player -> bool) (team : Team) : list PlayerHit :=
  map (fun player => mkPlayerHit player (name team))
      (filter keep (roster team)).

(** Every player of every team, once, in table and roster order, paired
    with the name of the team. *)
Definition all_players (db : Tables) : list PlayerHit :=
  flat_map
    (fun team => map (fun player => mkPlayerHit player (name team))
                     (roster team))
    (team_data db).

(** What an optional filter asks of a text [hay] when the filter is
    folded by the case method [fold]: nothing when absent, otherwise the
    folded filter occurs in [hay]. *)
Definition filter_within (fold : string -> string) (param : option string)
    (hay : string) : Prop :=
  forall v, param = Some v -> Text.occurs_in (fold v) hay.

(** An optional filter that, when supplied, is an ASCII text. *)
Definition ascii_filter (param : option string) : Prop :=
  forall v, param = Some v -> Text.is_ascii v = true.

(** What an optional filter asks of a text, without a case method:
    nothing when absent, otherwise an occurrence up to the case of the
    ASCII letters. *)
Definition filter_occurs (param : option string) (field : string) : Prop :=
  forall v, param = Some v -> Text.occurs_nocase v field.

(** What an optional date filter asks of a game's date: nothing when
    absent or empty, otherwise equality of the two texts. *)
Definition date_required (param : option string) (field : string) : Prop :=
  forall d, param = Some d -> d <> EmptyString -> d = field.

(** A handler that answers with a list includes [x] when it returns a
    list in which [x] occurs. *)
Definition includes {A : Type} (r : Response (list A)) (x : A) : Prop :=
  match r with
  | Ok l => In x l
  | HTTPException _ _ => False
  end.

Definition is_ModelChat (c : Call) : bool :=
  match c with
  | ModelChat _ _ => true
  | _ => false
  end.

(** The outcome of the handler once the external service has replied. *)
Definition reply_outcome (py_str : pyobj -> string)
    (validate_non_str : pyobj -> Result string) (reply : pyobj)
    : Result ChatResponse :=
  (response_text <- extract_text py_str reply ;;
   make_ChatResponse validate_non_str response_text)%result.

Definition response_of (r : Result ChatResponse) : Response ChatResponse :=
  match r with
  | Value body => Ok body
  | Raised e => HTTPException 500 ("Chat error: " ++ exc_str e)
  end.

(** A value has at least one element: it has a length, and the length is
    positive. *)
Definition has_elements (o : pyobj) : bool :=
  match Py.len o with
  | Value n => 0 <? n
  | Raised _ => false
  end.

(** The shape of the first tier: a [choices] attribute with at least one
    element. *)
Definition choices_attribute_nonempty (reply : pyobj) : bool :=
  match Py.getattr reply "choices" with
  | Value choices => has_elements choices
  | Raised _ => false
  end.

(** The three tiers in their order, each one tried when the shapes before
    it do not match. *)
Definition three_tiers (py_str : pyobj -> string) (reply : pyobj)
    : Result pyobj :=
  if choices_attribute_nonempty reply then content_by_attribute reply
  else if is_choices_dict reply then content_by_key reply
  else Value (PStr (py_str reply)).

(** Two optional filters that differ in the case of ASCII letters only:
    both absent, or both supplied and variants of each other. *)
Definition same_filter (a b : option string) : Prop :=
  match a, b with
  | None, None => True
  | Some x, Some y => Text.case_variant x y = true
  | _, _ => False
  end.

(** The player search finds [hit] when it returns a body whose results
    hold [hit]. *)
Definition finds (r : Response PlayerSearch) (hit : PlayerHit) : Prop :=
  match r with
  | Ok body => In hit (results body)
  | HTTPException _ _ => False
  end.

(** The roles for which the relay has a branch. *)
Definition recognised (r : string) : bool :=
  String.eqb r "system" || String.eqb r "user" || String.eqb r "assistant".

(** The calls of a run that reaches the service, in the order the
    handler makes them, given what each earlier call returned. *)
Definition relay_calls (url api_key credentials client project_id model : pyobj)
    (msgs : list pyobj) : list Call :=
  [Getenv "WATSONX_URL";
   Getenv "WATSONX_API_KEY";
   NewCredentials url api_key;
   NewAPIClient credentials;
   Getenv "WATSONX_PROJECT_ID";
   NewModelInference "ibm/granite-3-8b-instruct" client
     (PDict [("max_tokens", PInt 500); ("temperature", PFloat "0.7")])
     project_id PNone false;
   ModelChat model msgs].

(** ** Worlds and runtimes for the examples *)

(** A world in which every call succeeds and the service replies
    [reply]. *)
Definition world_replying (reply : pyobj) : World :=
  fun _ c =>
    match c with
    | Getenv _ => Value (PStr "configured")
    | NewCredentials _ _ => Value (PObject "Credentials" [] None)
    | NewAPIClient _ => Value (PObject "APIClient" [] None)
    | NewModelInference _ _ _ _ _ _ => Value (PObject "ModelInference" [] None)
    | ModelChat _ _ => Value reply
    end.

(** The same world, except that the call made after [stage] calls
    raises [e]. *)
Definition world_failing (stage : nat) (e : Exception) (reply : pyobj)
    : World :=
  fun made c =>
    if (List.length made =? stage)%nat then Raised e
    else world_replying reply made c.

(** A rendering for the examples: the name of the type. *)
Definition str_as_type_name (o : pyobj) : string :=
  match o with
  | PStr s => s
  | other => "<" ++ Py.type_name other ++ ">"
  end.

(** A pydantic that refuses every value that is not a text. *)
Definition refuse_non_str (o : pyobj) : Result string :=
  Raised (mkException "ValidationError"
            "1 validation error for ChatResponse").

(** ** Proof steps for the runs of the handler *)

Ltac answer w :=
  match goal with
  | |- context [w ?made ?c] =>
      let E := fresh "E" in
      destruct (w made c) eqn:E;
      cbn [run bind_prog app lift]
  end.

Ltac last_call H :=
  let Hl := fresh "Hlast" in
  let Hb := fresh "Hbefore" in
  pose proof (f_equal (fun l => last l (Getenv EmptyString)) H) as Hl;
  pose proof (f_equal (@removelast _) H) as Hb;
  cbv beta in Hl; rewrite last_last in Hl;
  rewrite removelast_last in Hb;
  cbn [last removelast] in Hl, Hb.

(** ** Facts about text *)

Module TextFacts.
Import Text.

Lemma in_all_ascii (c : ascii) : In c all_ascii.
Proof.
  unfold all_ascii.
  rewrite <- (ascii_nat_embedding c).
  apply in_map, in_seq.
  pose proof (nat_ascii_bounded c). lia.
Qed.

(** A boolean test on two characters holds everywhere once it holds on
    the table of all pairs. *)
Lemma forall2_ascii (f : ascii -> ascii -> bool) :
  forallb (fun a => forallb (f a) all_ascii) all_ascii = true ->
  forall a b, f a b = true.
Proof.
  intros H a b.
  rewrite forallb_forall in H.
  specialize (H a (in_all_ascii a)).
  rewrite forallb_forall in H.
  exact (H b (in_all_ascii b)).
Qed.

Lemma same_char_lower (a b : ascii) :
  same_char_nocase a b = Ascii.eqb (lower_char a) (lower_char b).
Proof.
  apply eqb_prop.
  revert a b. apply forall2_ascii. vm_compute. reflexivity.
Qed.

Lemma same_char_upper (a b : ascii) :
  same_char_nocase a b = Ascii.eqb (upper_char a) (upper_char b).
Proof.
  apply eqb_prop.
  revert a b. apply forall2_ascii. vm_compute. reflexivity.
Qed.

Section CharMap.

(** A case mapping [f] on characters that identifies exactly the
    characters that are the same up to case, and its extension [F] to
    strings. *)
Variable f : ascii -> ascii.
Variable F : string -> string.
Hypothesis F_nil : F EmptyString = EmptyString.
Hypothesis F_cons : forall c s, F (String c s) = String (f c) (F s).
Hypothesis f_same : forall a b, same_char_nocase a b = Ascii.eqb (f a) (f b).

Lemma F_app (a b : string) : F (a ++ b) = F a ++ F b.
Proof.
  induction a as [|c a IH]; simpl.
  - now rewrite F_nil.
  - now rewrite !F_cons, IH.
Qed.

Lemma F_split (s x y : string) :
  F s = x ++ y -> exists a b, s = a ++ b /\ F a = x /\ F b = y.
Proof.
  revert s. induction x as [|c x IH]; intros s H; simpl in H.
  - exists EmptyString, s. now rewrite F_nil.
  - destruct s as [|d s]; [now rewrite F_nil in H|].
    rewrite F_cons in H. injection H as Hc Hs.
    destruct (IH s Hs) as (a & b & -> & Ha & Hb).
    exists (String d a), b. rewrite F_cons. now subst.
Qed.

Lemma case_variant_F (a b : string) :
  case_variant a b = true <-> F a = F b.
Proof.
  revert b. induction a as [|x a IH]; intros [|y b]; simpl;
    rewrite ?F_nil, ?F_cons; try (split; [discriminate | discriminate]).
  - now split.
  - rewrite andb_true_iff, IH, f_same, Ascii.eqb_eq.
    split; [intros [-> ->]; reflexivity | intros H; now injection H].
Qed.

End CharMap.

Lemma case_variant_lower (a b : string) :
  case_variant a b = true <-> ascii_lower a = ascii_lower b.
Proof. apply case_variant_F with (f := lower_char); auto using same_char_lower. Qed.

Lemma case_variant_upper (a b : string) :
  case_variant a b = true <-> ascii_upper a = ascii_upper b.
Proof. apply case_variant_F with (f := upper_char); auto using same_char_upper. Qed.

Lemma case_variant_refl (a : string) : case_variant a a = true.
Proof. now apply case_variant_lower. Qed.

Lemma case_variant_sym (a b : string) :
  case_variant a b = true -> case_variant b a = true.
Proof. rewrite !case_variant_lower. auto. Qed.

Lemma case_variant_trans (a b c : string) :
  case_variant a b = true -> case_variant b c = true ->
  case_variant a c = true.
Proof. rewrite !case_variant_lower. congruence. Qed.

(** [startswith] and [contains] against concatenation. *)
Lemma startswith_iff (n h : string) :
  startswith n h = true <-> exists post, h = n ++ post.
Proof.
  revert h. induction n as [|a n IH]; intros h; simpl.
  - split; [intros _; now exists h | reflexivity].
  - destruct h as [|b h].
    + split; [discriminate | intros [post H]; discriminate].
    + rewrite andb_true_iff, Ascii.eqb_eq, IH. split.
      * intros [-> [post ->]]. now exists post.
      * intros [post H]. injection H as -> ->. split; [reflexivity | now exists post].
Qed.

Lemma contains_iff (n h : string) :
  contains n h = true <-> exists pre post, h = pre ++ n ++ post.
Proof.
  induction h as [|b h IH]; simpl; rewrite orb_true_iff, startswith_iff.
  - split.
    + intros [[post H] | H]; [|discriminate].
      now exists EmptyString, post.
    + intros (pre & post & H). left.
      destruct pre; [now exists post | discriminate].
  - rewrite IH. split.
    + intros [[post H] | (pre & post & ->)].
      * now exists EmptyString, post.
      * now exists (String b pre), post.
    + intros (pre & post & H). destruct pre as [|c pre]; simpl in H.
      * left. now exists post.
      * right. injection H as _ ->. now exists pre, post.
Qed.

Lemma contains_empty (h : string) : contains EmptyString h = true.
Proof. destruct h; reflexivity. Qed.

(** With the case mapping of the ASCII letters, the test after lowering
    and the test after raising both decide occurrence up to the case of
    the ASCII letters. *)
Lemma contains_lower_iff (n h : string) :
  contains (ascii_lower n) (ascii_lower h) = true <-> occurs_nocase n h.
Proof.
  rewrite contains_iff. unfold occurs_nocase. split.
  - intros (pre & post & H).
    apply (F_split lower_char ascii_lower) in H; auto.
    destruct H as (a & r & -> & Ha & Hr).
    apply (F_split lower_char ascii_lower) in Hr; auto.
    destruct Hr as (m & b & -> & Hm & Hb).
    exists a, m, b. split; [reflexivity|].
    now apply case_variant_lower.
  - intros (pre & mid & post & -> & H).
    apply case_variant_lower in H.
    exists (ascii_lower pre), (ascii_lower post).
    rewrite !(F_app lower_char ascii_lower); auto. now rewrite H.
Qed.

Lemma contains_upper_iff (n h : string) :
  contains (ascii_upper n) (ascii_upper h) = true <-> occurs_nocase n h.
Proof.
  rewrite contains_iff. unfold occurs_nocase. split.
  - intros (pre & post & H).
    apply (F_split upper_char ascii_upper) in H; auto.
    destruct H as (a & r & -> & Ha & Hr).
    apply (F_split upper_char ascii_upper) in Hr; auto.
    destruct Hr as (m & b & -> & Hm & Hb).
    exists a, m, b. split; [reflexivity|].
    now apply case_variant_upper.
  - intros (pre & mid & post & -> & H).
    apply case_variant_upper in H.
    exists (ascii_upper pre), (ascii_upper post).
    rewrite !(F_app upper_char ascii_upper); auto. now rewrite H.
Qed.

Lemma append_assoc (a b c : string) : (a ++ b) ++ c = a ++ (b ++ c).
Proof. induction a as [|x a IH]; simpl; [reflexivity | now rewrite IH]. Qed.

Lemma lower_app (a b : string) : ascii_lower (a ++ b) = ascii_lower a ++ ascii_lower b.
Proof. apply (F_app lower_char ascii_lower); auto. Qed.

Lemma occurs_nocase_empty (h : string) : occurs_nocase EmptyString h.
Proof. exists EmptyString, EmptyString, h. now split. Qed.

End TextFacts.

(** ** Facts about the loops and the lookups *)

(** A loop that appends [g x] for the elements that pass [p] leaves the
    accumulator followed by the images of the elements that pass, in
    order. *)
Lemma append_loop {A B : Type} (p : A -> bool) (g : A -> B) (l : list A)
    (init : list B) :
  fold_left (fun acc x => if p x then (acc ++ [g x])%list else acc) l init
  = (init ++ map g (filter p l))%list.
Proof.
  revert init. induction l as [|x l IH]; intros init; simpl.
  - now rewrite app_nil_r.
  - rewrite IH. destruct (p x); simpl; [|reflexivity].
    now rewrite <- app_assoc.
Qed.

(** The same for a loop that appends at most one element per step. *)
Lemma append_option_loop {A B : Type} (g : A -> option B) (l : list A)
    (init : list B) :
  fold_left (fun acc x => match g x with
                          | Some y => (acc ++ [y])%list
                          | None => acc
                          end) l init
  = (init ++ flat_map (fun x => match g x with
                                 | Some y => [y]
                                 | None => []
                                 end) l)%list.
Proof.
  revert init. induction l as [|x l IH]; intros init; simpl.
  - now rewrite app_nil_r.
  - rewrite IH. destruct (g x); simpl; [|reflexivity].
    now rewrite <- app_assoc.
Qed.

(** A loop whose body is itself an appending loop. *)
Lemma nested_append_loop {A B C : Type} (inner : A -> list B)
    (p : B -> bool) (g : A -> B -> C) (l : list A) (init : list C) :
  fold_left
    (fun acc x =>
       fold_left (fun acc y => if p y then (acc ++ [g x y])%list else acc)
                 (inner x) acc)
    l init
  = (init ++ flat_map (fun x => map (g x) (filter p (inner x))) l)%list.
Proof.
  revert init. induction l as [|x l IH]; intros init; simpl.
  - now rewrite app_nil_r.
  - rewrite IH, append_loop. now rewrite <- app_assoc.
Qed.

Lemma search_players_loop_eq {cm : CaseMapping} (db : Tables)
    (n p c : option string) :
  search_players_loop db n p c
  = flat_map (hits_of (player_match n p c)) (team_data db).
Proof.
  unfold search_players_loop.
  rewrite (nested_append_loop roster (player_match n p c)
             (fun team player => mkPlayerHit player (name team))).
  reflexivity.
Qed.

Lemma search_games_loop_eq {cm : CaseMapping} (db : Tables)
    (t d : option string) :
  search_games_loop db t d = filter (game_match t d) (games_data db).
Proof.
  unfold search_games_loop.
  rewrite (append_loop (game_match t d) (fun g => g)). simpl.
  now rewrite map_id.
Qed.

(** The test of one filter: it lets a text pass exactly when the folded
    filter occurs in it, for a fold that keeps the empty text. *)
Lemma truthy_and_within (fold : string -> string) (param : option string)
    (hay : string) :
  fold EmptyString = EmptyString ->
  truthy_and param (fun v => negb (Text.contains (fold v) hay)) = false
  <-> filter_within fold param hay.
Proof.
  intros Hempty. unfold filter_within, Text.occurs_in.
  destruct param as [[|a v]|]; unfold truthy_and, Text.truthy; cbn [andb].
  - split; [|reflexivity]. intros _ v [= <-]. rewrite Hempty.
    now exists EmptyString, hay.
  - rewrite negb_false_iff, TextFacts.contains_iff.
    split; [intros H w [= <-]; exact H | intros H; now apply H].
  - split; [intros _ v; discriminate | reflexivity].
Qed.

(** On ASCII texts the folded occurrence is the occurrence up to the
    case of the ASCII letters. *)
Lemma occurs_in_ascii_lower (v field : string) :
  Text.occurs_in (Text.ascii_lower v) (Text.ascii_lower field)
  <-> Text.occurs_nocase v field.
Proof.
  rewrite <- TextFacts.contains_lower_iff, TextFacts.contains_iff.
  reflexivity.
Qed.

Lemma occurs_in_ascii_upper (v field : string) :
  Text.occurs_in (Text.ascii_upper v) (Text.ascii_upper field)
  <-> Text.occurs_nocase v field.
Proof.
  rewrite <- TextFacts.contains_upper_iff, TextFacts.contains_iff.
  reflexivity.
Qed.

Lemma filter_within_lower_ascii {cm : CaseMapping} (laws : CaseLaws cm)
    (param : option string) (field : string) :
  ascii_filter param -> Text.is_ascii field = true ->
  filter_within str_lower param (str_lower field)
  <-> filter_occurs param field.
Proof.
  intros Hp Hf. unfold filter_within, filter_occurs.
  rewrite (lower_ascii cm laws field Hf).
  split; intros H v Hv; specialize (H v Hv);
    rewrite (lower_ascii cm laws v (Hp v Hv)) in *;
    now apply occurs_in_ascii_lower.
Qed.

Lemma filter_within_upper_ascii {cm : CaseMapping} (laws : CaseLaws cm)
    (param : option string) (field : string) :
  ascii_filter param -> Text.is_ascii field = true ->
  filter_within str_upper param (str_upper field)
  <-> filter_occurs param field.
Proof.
  intros Hp Hf. unfold filter_within, filter_occurs.
  rewrite (upper_ascii cm laws field Hf).
  split; intros H v Hv; specialize (H v Hv);
    rewrite (upper_ascii cm laws v (Hp v Hv)) in *;
    now apply occurs_in_ascii_upper.
Qed.

Lemma player_match_iff {cm : CaseMapping} (laws : CaseLaws cm)
    (n p c : option string) (player : Player) :
  player_match n p c player = true
  <-> filter_within str_lower n (str_lower (player_name player))
      /\ filter_within str_upper p (str_upper (position player))
      /\ filter_within str_lower c (str_lower (country player)).
Proof.
  rewrite <- (truthy_and_within str_lower n) by apply (lower_empty cm laws).
  rewrite <- (truthy_and_within str_upper p) by apply (upper_empty cm laws).
  rewrite <- (truthy_and_within str_lower c) by apply (lower_empty cm laws).
  unfold player_match.
  destruct (truthy_and n _), (truthy_and p _), (truthy_and c _);
    simpl; intuition congruence.
Qed.

(** An empty-string parameter and an absent one fail the same tests. *)
Lemma truthy_and_empty (cond : string -> bool) :
  truthy_and (Some EmptyString) cond = truthy_and None cond.
Proof. reflexivity. Qed.

Lemma truthy_and_date (param : option string) (field : string) :
  truthy_and param (fun d => negb (String.eqb d field)) = false
  <-> date_required param field.
Proof.
  unfold date_required.
  destruct param as [[|a d]|]; unfold truthy_and, Text.truthy; cbn [andb].
  - split; [|reflexivity]. intros _ d [= <-] H. now elim H.
  - rewrite negb_false_iff, String.eqb_eq. split.
    + intros H d' [= <-] _. exact H.
    + intros H. now apply H.
  - split; [intros _ d; discriminate | reflexivity].
Qed.

Lemma game_match_iff {cm : CaseMapping} (laws : CaseLaws cm)
    (t d : option string) (game : Game) :
  game_match t d game = true
  <-> filter_within str_lower t
        (str_lower (team1 game) ++ str_lower (team2 game))
      /\ date_required d (date game).
Proof.
  rewrite <- (truthy_and_within str_lower t) by apply (lower_empty cm laws).
  rewrite <- truthy_and_date.
  unfold game_match.
  destruct (truthy_and t _), (truthy_and d _); simpl; intuition congruence.
Qed.

Lemma search_games_includes_loop {cm : CaseMapping} (db : Tables)
    (t d : option string) (game : Game) :
  includes (search_games db t d) game <-> In game (search_games_loop db t d).
Proof.
  unfold search_games. destruct (search_games_loop db t d); simpl; tauto.
Qed.

Lemma ascii_case_laws : CaseLaws ascii_case.
Proof.
  split; try reflexivity.
  - intros a b H. now apply TextFacts.case_variant_lower.
  - intros a b H. now apply TextFacts.case_variant_upper.
Qed.

Lemma is_ascii_app (a b : string) :
  Text.is_ascii (a ++ b) = Text.is_ascii a && Text.is_ascii b.
Proof.
  induction a as [|x a IH]; simpl; [reflexivity|].
  now rewrite IH, andb_assoc.
Qed.

(** ** The game search (C1) *)

(** C1, as stated, fails: a date filter supplied as the empty string is
    not compared with the game's date.  With one game dated
    ["2025-10-21"] in the table, [search_games] with the empty string as
    [date] includes that game, although the two texts differ. *)
Lemma search_games_empty_date_counterexample :
  ~ (forall (cm : CaseMapping) (db : Tables) (team date_ : option string)
            (game : Game),
       CaseLaws cm ->
       In game (games_data db) ->
       (includes (search_games db team date_) game
        <-> filter_within str_lower team
              (str_lower (team1 game) ++ str_lower (team2 game))
            /\ (forall d, date_ = Some d -> d = date game))).
Proof.
  intros H.
  pose (g := mkGame "Lakers" "Warriors" "2025-10-21" "Los Angeles").
  specialize (H ascii_case (mkTables [] [] [] [g]) None (Some EmptyString) g
                ascii_case_laws (or_introl eq_refl)).
  destruct H as [H _].
  assert (Hin : includes
            (search_games (cm := ascii_case) (mkTables [] [] [] [g]) None
                          (Some EmptyString)) g)
    by (simpl; auto).
  destruct (H Hin) as [_ Hd].
  specialize (Hd EmptyString eq_refl). discriminate.
Qed.

(** C1, amended: [search_games] includes a game exactly when the game is
    in the table, the team filter (if supplied), lower-cased, occurs in
    the concatenation of the lower-cased [team1] and the lower-cased
    [team2], and the date filter (if supplied and not empty) equals the
    game's date; so a search text whose lower-case form spans the
    boundary between the two lower-cased names matches.  On ASCII texts
    the team filter asks for an occurrence, up to the case of the
    letters, in the concatenation of [team1] and [team2]. *)
Theorem search_games_includes {cm : CaseMapping} (laws : CaseLaws cm)
    (db : Tables) (team date_ : option string) (game : Game) :
  (includes (search_games db team date_) game
   <-> In game (games_data db)
       /\ filter_within str_lower team
             (str_lower (team1 game) ++ str_lower (team2 game))
       /\ date_required date_ (date game))
  /\ (forall v pre a b post,
        In game (games_data db) ->
        str_lower (team1 game) = pre ++ a ->
        str_lower (team2 game) = b ++ post ->
        str_lower v = a ++ b ->
        includes (search_games db (Some v) None) game)
  /\ (ascii_filter team ->
      Text.is_ascii (team1 game) = true ->
      Text.is_ascii (team2 game) = true ->
      (filter_within str_lower team
         (str_lower (team1 game) ++ str_lower (team2 game))
       <-> filter_occurs team (team1 game ++ team2 game))).
Proof.
  assert (Hiff : forall t d,
            includes (search_games db t d) game
            <-> In game (games_data db)
                /\ filter_within str_lower t
                      (str_lower (team1 game) ++ str_lower (team2 game))
                /\ date_required d (date game)).
  { intros t d.
    rewrite search_games_includes_loop, search_games_loop_eq, filter_In.
    now rewrite (game_match_iff laws). }
  split; [apply Hiff|]. split.
  - intros v pre a b post Hin H1 H2 Hv. apply Hiff.
    split; [exact Hin|]. split.
    + intros w [= <-]. exists pre, post.
      rewrite H1, H2, Hv. now rewrite !TextFacts.append_assoc.
    + intros d Hd. discriminate.
  - intros Ht H1 H2.
    rewrite (lower_ascii cm laws _ H1), (lower_ascii cm laws _ H2).
    rewrite <- TextFacts.lower_app.
    assert (H12 : Text.is_ascii (team1 game ++ team2 game) = true)
      by (now rewrite is_ascii_app, H1, H2).
    rewrite <- (lower_ascii cm laws _ H12).
    now apply filter_within_lower_ascii.
Qed.

(** A table on which the boundary case is live: ["WARRIORS"] is found
    across the end of [team1] and the start of [team2]. *)
Lemma search_games_includes_witness :
  let cm := ascii_case in
  let g := mkGame "Thunderwar" "riors United" "2025-10-21" "Tulsa" in
  let db := mkTables [] [] [] [g] in
  includes (search_games db (Some "WarRiors") None) g
  /\ includes (search_games db (Some "WARRIORS") (Some "2025-10-21")) g
  /\ filter_occurs (Some "WARRIORS") (team1 g ++ team2 g).
Proof.
  intros cm g db. subst cm. split; [|split].
  - apply (proj1 (proj2 (search_games_includes ascii_case_laws db None None g))
             "WarRiors" "thunder" "war" "riors" " united");
      [left; reflexivity | reflexivity | reflexivity | reflexivity].
  - apply (proj1 (search_games_includes ascii_case_laws db (Some "WARRIORS")
                    (Some "2025-10-21") g)).
    split; [left; reflexivity|]. split.
    + intros v [= <-]. exists "thunder", " united". reflexivity.
    + intros d [= <-] _. reflexivity.
  - apply (proj2 (proj2 (search_games_includes ascii_case_laws db
                           (Some "WARRIORS") None g)));
      [intros v [= <-]; reflexivity | reflexivity | reflexivity |].
    intros v [= <-]. exists "thunder", " united". reflexivity.
Defined.

(** ** The player search (C2) *)

Lemma filter_all {A : Type} (p : A -> bool) (l : list A) :
  (forall x, In x l -> p x = true) -> filter p l = l.
Proof.
  induction l as [|x l IH]; intros H; simpl; [reflexivity|].
  rewrite (H x (or_introl eq_refl)), IH; [reflexivity|].
  intros y Hy. apply H. now right.
Qed.

Lemma search_players_loop_unfiltered {cm : CaseMapping} (db : Tables) (n p c : option string) :
  (forall player, player_match n p c player = true) ->
  search_players_loop db n p c = all_players db.
Proof.
  intros H. rewrite search_players_loop_eq. unfold all_players, hits_of.
  apply flat_map_ext. intros team.
  now rewrite filter_all by (intros; apply H).
Qed.

(** C2: the list [search_players] builds holds, team after team in table
    order and player after player in roster order, the pair of the
    player and the team's name for exactly the players that pass the
    filters; a player passes exactly when every supplied filter occurs in
    its field with letter case folded away: the lower-cased name filter
    in the lower-cased name, the upper-cased position filter in the
    upper-cased position, the lower-cased country filter in the
    lower-cased country; on ASCII texts each of the three is an
    occurrence up to the case of the letters.  The handler returns that
    list, with its length, whenever it is not empty; and without filters
    the list is every player of every team once, paired with the team's
    name. *)
Theorem search_players_pairs {cm : CaseMapping} (laws : CaseLaws cm)
    (db : Tables) (name_ position_ country_ : option string) :
  search_players_loop db name_ position_ country_
  = flat_map
      (fun team =>
         map (fun player => mkPlayerHit player (name team))
             (filter (player_match name_ position_ country_) (roster team)))
      (team_data db)
  /\ (forall player,
        player_match name_ position_ country_ player = true
        <-> filter_within str_lower name_ (str_lower (player_name player))
            /\ filter_within str_upper position_
                  (str_upper (position player))
            /\ filter_within str_lower country_
                  (str_lower (country player)))
  /\ (forall player,
        ascii_filter name_ -> ascii_filter position_ ->
        ascii_filter country_ ->
        Text.is_ascii (player_name player) = true ->
        Text.is_ascii (position player) = true ->
        Text.is_ascii (country player) = true ->
        (player_match name_ position_ country_ player = true
         <-> filter_occurs name_ (player_name player)
             /\ filter_occurs position_ (position player)
             /\ filter_occurs country_ (country player)))
  /\ (search_players_loop db name_ position_ country_ <> [] ->
      search_players db name_ position_ country_
      = Ok (mkPlayerSearch
              (Z.of_nat (List.length
                           (search_players_loop db name_ position_ country_)))
              (search_players_loop db name_ position_ country_)))
  /\ search_players_loop db None None None = all_players db
  /\ (all_players db <> [] ->
      search_players db None None None
      = Ok (mkPlayerSearch (Z.of_nat (List.length (all_players db)))
                           (all_players db))).
Proof.
  assert (Hok : forall n p c,
            search_players_loop db n p c <> [] ->
            search_players db n p c
            = Ok (mkPlayerSearch
                    (Z.of_nat (List.length (search_players_loop db n p c)))
                    (search_players_loop db n p c))).
  { intros n p c. unfold search_players.
    destruct (search_players_loop db n p c);
      [intros H; now elim H | reflexivity]. }
  assert (Hall : search_players_loop db None None None = all_players db)
    by (apply search_players_loop_unfiltered; reflexivity).
  split; [apply search_players_loop_eq|].
  split; [intros player; apply (player_match_iff laws)|].
  split.
  { intros player Hn Hp Hc Hname Hpos Hcountry.
    rewrite (player_match_iff laws).
    rewrite (filter_within_lower_ascii laws name_ _ Hn Hname).
    rewrite (filter_within_upper_ascii laws position_ _ Hp Hpos).
    rewrite (filter_within_lower_ascii laws country_ _ Hc Hcountry).
    reflexivity. }
  split; [apply Hok|].
  split; [exact Hall|].
  intros H. rewrite <- Hall in *. now apply Hok.
Qed.

(** A table of two teams: the search for ["C"] in the country keeps the
    players from Canada and from France in table order, and the player
    from the USA fails it. *)
Lemma search_players_pairs_witness :
  let cm := ascii_case in
  let sga := mkPlayer "Shai Gilgeous-Alexander" "G" "6-6" "195" "Kentucky" "Canada" in
  let jw := mkPlayer "Jalen Williams" "F" "6-5" "211" "Santa Clara" "USA" in
  let vw := mkPlayer "Victor Wembanyama" "F-C" "7-3" "235" "Metropolitans 92" "France" in
  let db := mkTables [mkTeam 1 "Thunder" [sga; jw]; mkTeam 2 "Spurs" [vw]] [] [] [] in
  search_players db None None (Some "C")
  = Ok (mkPlayerSearch 2 [mkPlayerHit sga "Thunder"; mkPlayerHit vw "Spurs"])
  /\ (filter_occurs None (player_name vw)
      /\ filter_occurs None (position vw)
      /\ filter_occurs (Some "C") (country vw)).
Proof.
  intros cm sga jw vw db. subst cm.
  pose proof (search_players_pairs ascii_case_laws db None None (Some "C"))
    as (_ & _ & Hascii & Hok & _).
  split.
  - rewrite Hok; [reflexivity | discriminate].
  - apply (Hascii vw); try reflexivity;
      try (intros v Hv; discriminate Hv).
    intros v [= <-]. reflexivity.
Defined.

(** ** Empty searches (C7) *)

Lemma flat_map_nil {A B : Type} (f : A -> list B) (l : list A) :
  (forall x, In x l -> f x = []) -> flat_map f l = [].
Proof.
  induction l as [|x l IH]; intros H; simpl; [reflexivity|].
  rewrite (H x (or_introl eq_refl)), IH; [reflexivity|].
  intros y Hy. apply H. now right.
Qed.

Lemma filter_nil {A : Type} (p : A -> bool) (l : list A) :
  (forall x, In x l -> p x = false) -> filter p l = [].
Proof.
  induction l as [|x l IH]; intros H; simpl; [reflexivity|].
  rewrite (H x (or_introl eq_refl)), IH; [reflexivity|].
  intros y Hy. apply H. now right.
Qed.

(** C7: when no player of any roster passes the filters, [search_players]
    raises 404 with its message instead of returning an empty list, and
    when no game of the table passes the filters, [search_games] does the
    same. *)
Theorem empty_search_is_404 {cm : CaseMapping} (db : Tables) :
  (forall name_ position_ country_,
     (forall team player,
        In team (team_data db) -> In player (roster team) ->
        player_match name_ position_ country_ player = false) ->
     search_players db name_ position_ country_
     = HTTPException 404 "No players found matching the criteria")
  /\ (forall team date_,
        (forall game, In game (games_data db) ->
                      game_match team date_ game = false) ->
        search_games db team date_
        = HTTPException 404 "No games found matching the criteria").
Proof.
  split.
  - intros n p c H. unfold search_players.
    rewrite search_players_loop_eq, flat_map_nil; [reflexivity|].
    intros team Hteam. unfold hits_of.
    rewrite filter_nil; [reflexivity|]. intros player. now apply H.
  - intros t d H. unfold search_games.
    now rewrite search_games_loop_eq, filter_nil.
Qed.

(** A table in which nobody is from Spain and nobody plays on
    ["2026-01-01"]. *)
Lemma empty_search_is_404_witness :
  let cm := ascii_case in
  let p := mkPlayer "Jalen Williams" "F" "6-5" "211" "Santa Clara" "USA" in
  let g := mkGame "Lakers" "Warriors" "2025-10-21" "Los Angeles" in
  let db := mkTables [mkTeam 1 "Thunder" [p]] [] [] [g] in
  search_players db (Some "zz") (Some "Q") (Some "Spain")
  = HTTPException 404 "No players found matching the criteria"
  /\ search_games db None (Some "2026-01-01")
     = HTTPException 404 "No games found matching the criteria".
Proof.
  intros cm p g db. subst cm. split.
  - apply (proj1 (empty_search_is_404 db)).
    intros team player [<- | []] [<- | []]. reflexivity.
  - apply (proj2 (empty_search_is_404 db)).
    intros game [<- | []]. reflexivity.
Defined.

(** ** Empty-string filters (C10) *)

Lemma player_match_empty {cm : CaseMapping} (n p c : option string) (player : Player) :
  player_match (Some EmptyString) p c player = player_match None p c player
  /\ player_match n (Some EmptyString) c player = player_match n None c player
  /\ player_match n p (Some EmptyString) player = player_match n p None player.
Proof. repeat split. Qed.

Lemma game_match_empty {cm : CaseMapping} (t d : option string) (game : Game) :
  game_match (Some EmptyString) d game = game_match None d game
  /\ game_match t (Some EmptyString) game = game_match t None game.
Proof. repeat split. Qed.

Lemma search_players_ext {cm : CaseMapping} (db : Tables) (n p c n' p' c' : option string) :
  (forall player, player_match n p c player = player_match n' p' c' player) ->
  search_players db n p c = search_players db n' p' c'.
Proof.
  intros H. unfold search_players. rewrite !search_players_loop_eq.
  assert (E : flat_map (hits_of (player_match n p c)) (team_data db)
              = flat_map (hits_of (player_match n' p' c')) (team_data db)).
  { apply flat_map_ext. intros team. unfold hits_of. f_equal.
    now apply filter_ext. }
  now rewrite E.
Qed.

Lemma search_games_ext {cm : CaseMapping} (db : Tables) (t d t' d' : option string) :
  (forall game, game_match t d game = game_match t' d' game) ->
  search_games db t d = search_games db t' d'.
Proof.
  intros H. unfold search_games. rewrite !search_games_loop_eq.
  now rewrite (filter_ext _ _ H).
Qed.

(** C10: in both searches a filter given as the empty string answers as
    the same request without that filter; so [search_players] with the
    empty string as [name] and no other filter returns every player of
    every team whenever there is one. *)
Theorem empty_filter_is_absent {cm : CaseMapping} (db : Tables) :
  (forall n p c,
     search_players db (Some EmptyString) p c = search_players db None p c
     /\ search_players db n (Some EmptyString) c = search_players db n None c
     /\ search_players db n p (Some EmptyString) = search_players db n p None)
  /\ (forall t d,
        search_games db (Some EmptyString) d = search_games db None d
        /\ search_games db t (Some EmptyString) = search_games db t None)
  /\ (all_players db <> [] ->
      search_players db (Some EmptyString) None None
      = Ok (mkPlayerSearch (Z.of_nat (List.length (all_players db)))
                           (all_players db))).
Proof.
  split; [|split].
  - intros n p c. repeat split; apply search_players_ext; reflexivity.
  - intros t d. split; apply search_games_ext; reflexivity.
  - intros H.
    rewrite (search_players_ext db (Some EmptyString) None None None None None)
      by reflexivity.
    unfold search_players.
    rewrite (search_players_loop_unfiltered db None None None)
      by reflexivity.
    destruct (all_players db); [now elim H | reflexivity].
Qed.

(** A table of one team: the empty string as [name] returns its two
    players. *)
Lemma empty_filter_is_absent_witness :
  let cm := ascii_case in
  let a := mkPlayer "Shai Gilgeous-Alexander" "G" "6-6" "195" "Kentucky" "Canada" in
  let b := mkPlayer "Jalen Williams" "F" "6-5" "211" "Santa Clara" "USA" in
  let db := mkTables [mkTeam 1 "Thunder" [a; b]] [] [] [] in
  search_players db (Some EmptyString) None None
  = Ok (mkPlayerSearch 2 [mkPlayerHit a "Thunder"; mkPlayerHit b "Thunder"]).
Proof.
  intros cm a b db. subst cm.
  rewrite (proj2 (proj2 (empty_filter_is_absent db))).
  - reflexivity.
  - discriminate.
Defined.

(** ** Team and roster by id (C9) *)

(** C9: for every id, [get_team_roster] answers with the roster of the
    team [get_team_by_id] answers with, and raises the same 404 when
    [get_team_by_id] raises it; so the two rosters are the same list and
    the two handlers fail on the same ids, the ids of no team in the
    table. *)
Theorem roster_round_trip (db : Tables) (team_id : Z) :
  get_team_roster db team_id
  = match get_team_by_id db team_id with
    | Ok team => Ok (roster team)
    | HTTPException code detail => HTTPException code detail
    end
  /\ is_status 404 (get_team_roster db team_id)
     = is_status 404 (get_team_by_id db team_id)
  /\ (is_status 404 (get_team_by_id db team_id) = true
      <-> ~ exists team, In team (team_data db) /\ id team = team_id).
Proof.
  unfold get_team_roster, get_team_by_id, team_with_id.
  destruct (find _ (team_data db)) as [team|] eqn:E;
    (split; [reflexivity|]); (split; [reflexivity|]); simpl.
  - split; [discriminate|]. intros H. elim H.
    apply find_some in E. destruct E as [Hin Hid].
    exists team. split; [exact Hin | now apply Z.eqb_eq].
  - split; [|reflexivity]. intros _ (team & Hin & Hid).
    apply (find_none _ _ E) in Hin. apply Z.eqb_neq in Hin. contradiction.
Qed.

(** ** Team by name (C8) *)

Lemma find_first_some {A : Type} (p : A -> bool) (l : list A) (x : A) :
  In x l -> p x = true -> exists y, find p l = Some y /\ p y = true.
Proof.
  intros Hin Hp. destruct (find p l) as [y|] eqn:E.
  - exists y. split; [reflexivity|]. now apply find_some in E.
  - apply (find_none _ _ E) in Hin. congruence.
Qed.

Lemma find_unique {A : Type} (p : A -> bool) (l : list A) (x : A) :
  In x l -> p x = true ->
  (forall y, In y l -> p y = true -> y = x) ->
  find p l = Some x.
Proof.
  intros Hin Hp Huniq. destruct (find p l) as [y|] eqn:E.
  - apply find_some in E. destruct E as [Hy Hpy].
    now rewrite (Huniq y Hy Hpy).
  - apply (find_none _ _ E) in Hin. congruence.
Qed.

Lemma get_team_by_name_first {cm : CaseMapping} (db : Tables)
    (team : Team) (q : string) :
  In team (team_data db) -> str_lower q = str_lower (name team) ->
  exists found,
    find (fun t => String.eqb (str_lower (name t)) (str_lower q))
         (team_data db) = Some found
    /\ In found (team_data db)
    /\ str_lower (name found) = str_lower (name team).
Proof.
  intros Hin Hq.
  destruct (find_first_some
              (fun t => String.eqb (str_lower (name t)) (str_lower q))
              (team_data db) team Hin) as (found & Hfind & Hp).
  { rewrite Hq. apply String.eqb_refl. }
  exists found. split; [exact Hfind|]. split.
  - now apply find_some in Hfind.
  - apply String.eqb_eq in Hp. congruence.
Qed.

(** C8: two queries that have the lower-case form of the name of a team
    in the table, as two variants of that name in the case of its
    letters have, get the same team, a team of the table whose name has
    that lower-case form too; it is that very team when no other name in
    the table has that lower-case form; and a query whose lower-case form
    is that of no name in the table gets 404.  On ASCII texts, the names
    with the lower-case form of the query are its variants in the case
    of the letters. *)
Theorem get_team_by_name_ignores_case {cm : CaseMapping}
    (laws : CaseLaws cm) (db : Tables) :
  (forall team q1 q2,
     In team (team_data db) ->
     str_lower q1 = str_lower (name team) ->
     str_lower q2 = str_lower (name team) ->
     exists found,
       get_team_by_name db q1 = Ok found
       /\ get_team_by_name db q2 = Ok found
       /\ In found (team_data db)
       /\ str_lower (name found) = str_lower (name team))
  /\ (forall team q1 q2,
        In team (team_data db) ->
        Text.case_variant q1 (name team) = true ->
        Text.case_variant q2 (name team) = true ->
        exists found,
          get_team_by_name db q1 = Ok found
          /\ get_team_by_name db q2 = Ok found
          /\ In found (team_data db)
          /\ str_lower (name found) = str_lower (name team))
  /\ (forall team q,
        In team (team_data db) ->
        str_lower q = str_lower (name team) ->
        (forall other, In other (team_data db) ->
                       str_lower (name other) = str_lower (name team) ->
                       other = team) ->
        get_team_by_name db q = Ok team)
  /\ (forall q,
        (forall team, In team (team_data db) ->
                      str_lower (name team) <> str_lower q) ->
        get_team_by_name db q
        = HTTPException 404 ("Team '" ++ q ++ "' not found"))
  /\ (forall q,
        Text.is_ascii q = true ->
        (forall team, In team (team_data db) ->
                      Text.is_ascii (name team) = true) ->
        (forall team, In team (team_data db) ->
                      Text.case_variant q (name team) = false) ->
        get_team_by_name db q
        = HTTPException 404 ("Team '" ++ q ++ "' not found")).
Proof.
  assert (Hsame : forall team q1 q2,
            In team (team_data db) ->
            str_lower q1 = str_lower (name team) ->
            str_lower q2 = str_lower (name team) ->
            exists found,
              get_team_by_name db q1 = Ok found
              /\ get_team_by_name db q2 = Ok found
              /\ In found (team_data db)
              /\ str_lower (name found) = str_lower (name team)).
  { intros team q1 q2 Hin H1 H2.
    destruct (get_team_by_name_first db team q1 Hin H1)
      as (found & Hfind & Hf & Hl).
    exists found. unfold get_team_by_name.
    assert (H21 : str_lower q2 = str_lower q1) by congruence.
    rewrite H21, Hfind. now repeat split. }
  assert (Hnone : forall q,
            (forall team, In team (team_data db) ->
                          str_lower (name team) <> str_lower q) ->
            get_team_by_name db q
            = HTTPException 404 ("Team '" ++ q ++ "' not found")).
  { intros q H. unfold get_team_by_name.
    destruct (find _ (team_data db)) as [team|] eqn:E; [|reflexivity].
    apply find_some in E. destruct E as [Hin Hp].
    apply String.eqb_eq in Hp. now elim (H team Hin). }
  split; [exact Hsame|]. split; [|split; [|split; [exact Hnone|]]].
  - intros team q1 q2 Hin H1 H2.
    apply (Hsame team q1 q2 Hin); now apply (lower_variant cm laws).
  - intros team q Hin Hq Huniq. unfold get_team_by_name.
    rewrite (find_unique _ _ team Hin); [reflexivity | |].
    + rewrite Hq. apply String.eqb_refl.
    + intros other Ho Hp. apply Huniq; [exact Ho|].
      apply String.eqb_eq in Hp. congruence.
  - intros q Hq Hnames Hvar. apply Hnone. intros team Hin Heq.
    rewrite (lower_ascii cm laws _ Hq) in Heq.
    rewrite (lower_ascii cm laws _ (Hnames team Hin)) in Heq.
    symmetry in Heq. apply TextFacts.case_variant_lower in Heq.
    rewrite (Hvar team Hin) in Heq. discriminate.
Qed.

(** ["Lakers"], ["LAKERS"] and ["lakers"] all get the Lakers; ["Laker"]
    gets 404. *)
Lemma get_team_by_name_ignores_case_witness :
  let cm := ascii_case in
  let lakers := mkTeam 14 "Lakers" [] in
  let db := mkTables [mkTeam 2 "Celtics" []; lakers] [] [] [] in
  get_team_by_name db "Lakers" = Ok lakers
  /\ get_team_by_name db "LAKERS" = Ok lakers
  /\ get_team_by_name db "lakers" = Ok lakers
  /\ (exists found, get_team_by_name db "LAKERS" = Ok found
                    /\ get_team_by_name db "lakers" = Ok found)
  /\ (exists found, get_team_by_name db "LAkers" = Ok found
                    /\ get_team_by_name db "lakerS" = Ok found)
  /\ get_team_by_name db "Laker" = HTTPException 404 "Team 'Laker' not found"
  /\ get_team_by_name db "Lakerz"
     = HTTPException 404 "Team 'Lakerz' not found".
Proof.
  intros cm lakers db. subst cm.
  pose proof (get_team_by_name_ignores_case ascii_case_laws db)
    as (Hsame & Hvariant & Huniq & Hnone & Hascii).
  assert (Hin : In lakers (team_data db)) by (right; left; reflexivity).
  assert (Hu : forall other, In other (team_data db) ->
                 @str_lower ascii_case (name other)
                 = @str_lower ascii_case (name lakers) ->
                 other = lakers).
  { intros other [<- | [<- | []]] H; [discriminate H | reflexivity]. }
  split; [apply (Huniq lakers "Lakers" Hin eq_refl Hu)|].
  split; [apply (Huniq lakers "LAKERS" Hin eq_refl Hu)|].
  split; [apply (Huniq lakers "lakers" Hin eq_refl Hu)|].
  split; [|split; [|split]].
  - destruct (Hsame lakers "LAKERS" "lakers" Hin eq_refl eq_refl)
      as (found & H1 & H2 & _).
    exists found. now split.
  - destruct (Hvariant lakers "LAkers" "lakerS" Hin eq_refl eq_refl)
      as (found & H1 & H2 & _).
    exists found. now split.
  - apply (Hnone "Laker"). intros team [<- | [<- | []]]; discriminate.
  - apply (Hascii "Lakerz"); [reflexivity | |].
    + intros team [<- | [<- | []]]; reflexivity.
    + intros team [<- | [<- | []]]; reflexivity.
Defined.

(** ** Standing of a team (C3) *)

Lemma find_first_at {A : Type} (p : A -> bool) (earlier later : list A)
    (x : A) :
  p x = true -> (forall y, In y earlier -> p y = false) ->
  find p (earlier ++ x :: later) = Some x.
Proof.
  intros Hx. induction earlier as [|a l IH]; intros Hl; simpl.
  - now rewrite Hx.
  - rewrite (Hl a (or_introl eq_refl)). apply IH.
    intros y Hy. apply Hl. now right.
Qed.

(** C3: [get_team_standing] reads the team table and the Eastern table
    only: it answers the same on any other Western table.  When the id
    has a team and an Eastern entry carries exactly its name, it returns
    the team's name with the first such entry; an entry whose [Team]
    field differs from the name, be it by letter case only, is passed
    over.  A standing it returns is the first Eastern entry whose [Team]
    field equals the team's name as a text.  When the id has a team but
    no Eastern entry carries exactly its name, it raises 404 with a
    detail that names the team, also when the Western table has an entry
    of that name. *)
Theorem get_team_standing_eastern_only (db : Tables) (team_id : Z) :
  (forall team earlier standing later,
     team_with_id db team_id = Some team ->
     standings_data_eastern db = (earlier ++ standing :: later)%list ->
     Team_ standing = name team ->
     (forall other, In other earlier -> Team_ other <> name team) ->
     get_team_standing db team_id
     = Ok (mkTeamStanding (name team) standing))
  /\ (forall team,
        team_with_id db team_id = Some team ->
        (exists standing, In standing (standings_data_eastern db)
                          /\ Team_ standing = name team) ->
        exists standing,
          get_team_standing db team_id
          = Ok (mkTeamStanding (name team) standing)
          /\ In standing (standings_data_eastern db)
          /\ Team_ standing = name team)
  /\ (forall western,
     get_team_standing
       (mkTables (team_data db) (standings_data_eastern db) western
                 (games_data db)) team_id
     = get_team_standing db team_id)
  /\ (forall body,
        get_team_standing db team_id = Ok body ->
        exists team,
          team_with_id db team_id = Some team
          /\ ts_team body = name team
          /\ find (fun s => String.eqb (Team_ s) (name team))
                  (standings_data_eastern db) = Some (ts_standing body)
          /\ In (ts_standing body) (standings_data_eastern db)
          /\ Team_ (ts_standing body) = name team)
  /\ (forall team,
        team_with_id db team_id = Some team ->
        (forall s, In s (standings_data_eastern db) ->
                   Team_ s <> name team) ->
        get_team_standing db team_id
        = HTTPException 404 ("Standing data not found for " ++ name team))
  /\ (forall team,
        team_with_id db team_id = Some team ->
        (forall s, In s (standings_data_eastern db) ->
                   Team_ s <> name team) ->
        (exists s, In s (standings_data_western db)
                   /\ Team_ s = name team) ->
        is_status 404 (get_team_standing db team_id) = true).
Proof.
  assert (H404 : forall team,
            team_with_id db team_id = Some team ->
            (forall s, In s (standings_data_eastern db) ->
                       Team_ s <> name team) ->
            get_team_standing db team_id
            = HTTPException 404 ("Standing data not found for " ++ name team)).
  { intros team Hteam Hnone. unfold get_team_standing. rewrite Hteam.
    destruct (find _ (standings_data_eastern db)) as [s|] eqn:E;
      [|reflexivity].
    apply find_some in E. destruct E as [Hin Heq].
    apply String.eqb_eq in Heq. now elim (Hnone s Hin). }
  split; [|split].
  { intros team earlier standing later Hteam Heast Hname Hearlier.
    unfold get_team_standing. rewrite Hteam, Heast.
    rewrite find_first_at; [reflexivity | now apply String.eqb_eq |].
    intros other Ho. apply String.eqb_neq. now apply Hearlier. }
  { intros team Hteam (standing & Hin & Hname).
    unfold get_team_standing. rewrite Hteam.
    destruct (find_first_some
                (fun s => String.eqb (Team_ s) (name team))
                (standings_data_eastern db) standing Hin)
      as (found & Hfind & Hp); [now apply String.eqb_eq|].
    exists found. rewrite Hfind. split; [reflexivity|].
    apply find_some in Hfind. split; [tauto | now apply String.eqb_eq]. }
  split; [reflexivity|]. split; [|split; [exact H404|]].
  - intros body. unfold get_team_standing.
    destruct (team_with_id db team_id) as [team|]; [|discriminate].
    destruct (find _ (standings_data_eastern db)) as [s|] eqn:E;
      [|discriminate].
    intros [= <-]. exists team. simpl.
    split; [reflexivity|]. split; [reflexivity|]. split; [exact E|].
    apply find_some in E. destruct E as [Hin Heq].
    split; [exact Hin | now apply String.eqb_eq].
  - intros team Hteam Hnone _. now rewrite (H404 team Hteam Hnone).
Qed.

(** The Lakers are in the team table and in the Western table only, and
    the Eastern table spells the Celtics in capitals: both ids get 404;
    the Knicks get their Eastern standing, the second entry of the
    table. *)
Lemma get_team_standing_eastern_only_witness :
  let celtics := mkStanding "CELTICS" 61 21 "0.744" "-" "8-2" "W3" in
  let knicks := mkStanding "Knicks" 51 31 "0.622" "-" "6-4" "W2" in
  let db :=
    mkTables
      [mkTeam 2 "Celtics" []; mkTeam 14 "Lakers" []; mkTeam 20 "Knicks" []]
      [celtics; knicks]
      [mkStanding "Lakers" 50 32 "0.610" "-" "7-3" "L1"]
      [] in
  get_team_standing db 20 = Ok (mkTeamStanding "Knicks" knicks)
  /\ (exists standing,
        get_team_standing db 20 = Ok (mkTeamStanding "Knicks" standing)
        /\ In standing (standings_data_eastern db)
        /\ Team_ standing = "Knicks")
  /\ get_team_standing db 14
     = HTTPException 404 "Standing data not found for Lakers"
  /\ is_status 404 (get_team_standing db 14) = true
  /\ get_team_standing db 2
     = HTTPException 404 "Standing data not found for Celtics"
  /\ (exists team, team_with_id db 20 = Some team
                   /\ Team_ knicks = name team).
Proof.
  intros celtics knicks db.
  assert (Hnone : forall s, In s (standings_data_eastern db) ->
                            Team_ s <> "Lakers").
  { intros s [<- | [<- | []]]; discriminate. }
  pose proof (get_team_standing_eastern_only db 20)
    as (Hfirst & Hsome & _ & Hok & _).
  pose proof (get_team_standing_eastern_only db 14)
    as (_ & _ & _ & _ & H404 & Hwest).
  split; [|split; [|split; [|split; [|split]]]].
  - apply (Hfirst (mkTeam 20 "Knicks" []) [celtics] knicks []);
      [reflexivity | reflexivity | reflexivity |].
    intros other [<- | []]. discriminate.
  - apply (Hsome (mkTeam 20 "Knicks" []) eq_refl).
    exists knicks. split; [right; left; reflexivity | reflexivity].
  - apply (H404 (mkTeam 14 "Lakers" []) eq_refl Hnone).
  - apply (Hwest (mkTeam 14 "Lakers" []) eq_refl Hnone).
    exists (mkStanding "Lakers" 50 32 "0.610" "-" "7-3" "L1").
    split; [left; reflexivity | reflexivity].
  - apply (proj1 (proj2 (proj2 (proj2 (proj2
             (get_team_standing_eastern_only db 2)))))
             (mkTeam 2 "Celtics" []) eq_refl).
    intros s [<- | [<- | []]]; discriminate.
  - destruct (Hok (mkTeamStanding "Knicks" knicks) eq_refl)
      as (team & Hteam & _ & _ & _ & Heq).
    exists team. split; [exact Hteam | exact Heq].
Defined.

(** ** Facts about running the handler *)

Lemma app_eq_length {A : Type} (l1 l2 r1 r2 : list A) :
  (l1 ++ r1 = l2 ++ r2)%list -> List.length l1 = List.length l2 ->
  l1 = l2 /\ r1 = r2.
Proof.
  revert l2. induction l1 as [|x l1 IH]; intros [|y l2] H Hlen;
    simpl in *; try discriminate.
  - now split.
  - injection H as -> H. destruct (IH l2 H) as [-> ->]; [lia|now split].
Qed.

(** The calls made by a run extend the calls made before it. *)
Lemma run_extends {A : Type} (w : World) (p : Prog A) :
  forall made0 r made,
    run w made0 p = (r, made) -> exists ext, made = (made0 ++ ext)%list.
Proof.
  induction p as [a|e|c k IH]; intros made0 r made H; simpl in H.
  - injection H as _ <-. exists []. now rewrite app_nil_r.
  - injection H as _ <-. exists []. now rewrite app_nil_r.
  - destruct (w made0 c) as [v|e].
    + destruct (IH v _ _ _ H) as [ext ->]. exists (c :: ext).
      now rewrite <- app_assoc.
    + injection H as _ <-. now exists [c].
Qed.

(** A call of a run that the world answers with an exception is the last
    call of the run, and the run raises that exception. *)
Lemma run_raised_call {A : Type} (w : World) (p : Prog A) :
  forall made0 r made,
    run w made0 p = (r, made) ->
    forall before c after e,
      made = (before ++ c :: after)%list ->
      (List.length made0 <= List.length before)%nat ->
      w before c = Raised e ->
      r = Raised e /\ after = [].
Proof.
  induction p as [a|e0|c0 k IH]; intros made0 r made H before c after e
    Hsplit Hlen Hw; simpl in H.
  - injection H as _ <-. apply (f_equal (@List.length _)) in Hsplit.
    rewrite length_app in Hsplit. simpl in Hsplit. lia.
  - injection H as _ <-. apply (f_equal (@List.length _)) in Hsplit.
    rewrite length_app in Hsplit. simpl in Hsplit. lia.
  - destruct (w made0 c0) as [v|e0] eqn:E.
    + destruct (Nat.eq_dec (List.length before) (List.length made0)) as [Heq|Hne].
      * destruct (run_extends w (k v) _ _ _ H) as [ext Hext].
        rewrite Hext, <- app_assoc in Hsplit. simpl in Hsplit.
        destruct (app_eq_length _ _ _ _ Hsplit) as [<- Hc]; [lia|].
        injection Hc as <- _. congruence.
      * apply (IH v _ _ _ H before c after e Hsplit); [|exact Hw].
        rewrite length_app. simpl. lia.
    + injection H as <- <-.
      assert (Hb : List.length before = List.length made0).
      { apply (f_equal (@List.length _)) in Hsplit.
        rewrite !length_app in Hsplit. simpl in Hsplit. lia. }
      destruct (app_eq_length _ _ _ _ Hsplit) as [<- Hc]; [lia|].
      injection Hc as <- <-. split; [congruence | reflexivity].
Qed.

(** The handler calls the service once, after the six calls that set the
    client and the model up, with the converted messages; when the
    service replies, the response of the handler is decided by the
    extraction of the reply alone. *)
Lemma chat_run (py_str : pyobj -> string)
    (validate_non_str : pyobj -> Result string) (w : World)
    (request : ChatRequest) (resp : Response ChatResponse)
    (made : list Call) :
  chat py_str validate_non_str w request = (resp, made) ->
  (List.length (filter is_ModelChat made) <= 1)%nat
  /\ (forall model msgs, In (ModelChat model msgs) made ->
                         msgs = convert_messages request)
  /\ (forall before model msgs reply,
        made = (before ++ [ModelChat model msgs])%list ->
        w before (ModelChat model msgs) = Value reply ->
        resp = response_of (reply_outcome py_str validate_non_str reply)).
Proof.
  unfold chat, chat_try, get_watsonx_client, call.
  cbn [run bind_prog app lift].
  repeat answer w;
    try (intros [= <- <-]; split; [simpl; lia|]; split;
         [ intros model msgs Hin; simpl in Hin;
           repeat (destruct Hin as [Hin|Hin]; try discriminate Hin);
           try contradiction; now injection Hin
         | intros before model msgs reply Hmade Hw;
           last_call Hmade; try discriminate Hlast;
           subst before; injection Hlast as <- <-; congruence ]).
  (* the service replied *)
  intros H. split; [|split].
  - revert H. unfold reply_outcome.
    destruct (extract_text py_str a5) as [t|e]; cbn [lift bind_prog run bind_result].
    + destruct (make_ChatResponse validate_non_str t); cbn [lift run];
        intros [= <- <-]; simpl; lia.
    + intros [= <- <-]; simpl; lia.
  - intros model msgs Hin.
    assert (Hmade : made =
      [Getenv "WATSONX_URL"; Getenv "WATSONX_API_KEY"; NewCredentials a a0;
       NewAPIClient a1; Getenv "WATSONX_PROJECT_ID";
       NewModelInference "ibm/granite-3-8b-instruct" a2
         (PDict [("max_tokens", PInt 500); ("temperature", PFloat "0.7")])
         a3 PNone false;
       ModelChat a4 (convert_messages request)]).
    { revert H. destruct (extract_text py_str a5) as [t|e];
        cbn [lift bind_prog run].
      - destruct (make_ChatResponse validate_non_str t); cbn [lift run];
          now intros [= _ <-].
      - now intros [= _ <-]. }
    subst made. simpl in Hin.
    repeat (destruct Hin as [Hin|Hin]; try discriminate Hin);
      try contradiction. now injection Hin.
  - intros before model msgs reply Hmade Hw.
    assert (Hm : made =
      [Getenv "WATSONX_URL"; Getenv "WATSONX_API_KEY"; NewCredentials a a0;
       NewAPIClient a1; Getenv "WATSONX_PROJECT_ID";
       NewModelInference "ibm/granite-3-8b-instruct" a2
         (PDict [("max_tokens", PInt 500); ("temperature", PFloat "0.7")])
         a3 PNone false;
       ModelChat a4 (convert_messages request)]).
    { revert H. destruct (extract_text py_str a5) as [t|e];
        cbn [lift bind_prog run].
      - destruct (make_ChatResponse validate_non_str t); cbn [lift run];
          now intros [= _ <-].
      - now intros [= _ <-]. }
    rewrite Hm in Hmade. last_call Hmade. subst before.
    injection Hlast as <- <-. rewrite E5 in Hw. injection Hw as <-.
    revert H. unfold reply_outcome, response_of.
    destruct (extract_text py_str a5) as [t|e];
      cbn [lift bind_prog run bind_result].
    + destruct (make_ChatResponse validate_non_str t); cbn [lift run];
        now intros [= <- _].
    + now intros [= <- _].
Qed.

(** ** Outbound messages (C4) *)

Lemma convert_messages_eq (request : ChatRequest) :
  convert_messages request
  = flat_map (fun msg => match convert_message msg with
                         | Some m => [m]
                         | None => []
                         end) (messages request).
Proof. unfold convert_messages. now rewrite append_option_loop. Qed.

(** C4: the outbound list follows the inbound order, message by message:
    nothing for no message, and for two inbound lists one after the other
    the two outbound lists one after the other; a [system] or [assistant]
    message goes out with its role and its content as a text, a [user]
    message with its content as the one-element list of the part
    [{"type": "text", "text": content}], and a message of any other role
    adds nothing.  The list is the one the handler passes to the
    service. *)
Theorem convert_messages_by_role :
  convert_messages (mkChatRequest []) = []
  /\ (forall inbound1 inbound2,
        convert_messages (mkChatRequest (inbound1 ++ inbound2))
        = (convert_messages (mkChatRequest inbound1)
           ++ convert_messages (mkChatRequest inbound2))%list)
  /\ (forall text,
        convert_messages (mkChatRequest [mkChatMessage "system" text])
        = [PDict [("role", PStr "system"); ("content", PStr text)]])
  /\ (forall text,
        convert_messages (mkChatRequest [mkChatMessage "user" text])
        = [PDict [("role", PStr "user");
                  ("content",
                   PList [PDict [("type", PStr "text");
                                 ("text", PStr text)]])]])
  /\ (forall text,
        convert_messages (mkChatRequest [mkChatMessage "assistant" text])
        = [PDict [("role", PStr "assistant"); ("content", PStr text)]])
  /\ (forall other text,
        other <> "system" -> other <> "user" -> other <> "assistant" ->
        convert_messages (mkChatRequest [mkChatMessage other text]) = [])
  /\ (forall py_str validate_non_str w request resp made model msgs,
        chat py_str validate_non_str w request = (resp, made) ->
        In (ModelChat model msgs) made ->
        msgs = convert_messages request).
Proof.
  split; [reflexivity|].
  split; [intros l1 l2; rewrite !convert_messages_eq; simpl;
          apply flat_map_app|].
  split; [reflexivity|]. split; [reflexivity|]. split; [reflexivity|].
  split.
  - intros other text H1 H2 H3.
    unfold convert_messages, convert_message. simpl.
    apply String.eqb_neq in H1, H2, H3. now rewrite H1, H2, H3.
  - intros py_str validate_non_str w request resp made model msgs H Hin.
    now apply (proj1 (proj2 (chat_run _ _ _ _ _ _ H)) model).
Qed.

(** The scenario of the specification with a message of an unknown role
    in between: two outbound messages, in order. *)
Lemma convert_messages_by_role_witness :
  convert_messages
    (mkChatRequest ([mkChatMessage "system" "You are an NBA expert"]
                    ++ [mkChatMessage "tool" "ignored"]
                    ++ [mkChatMessage "user" "Who won the 2020 finals?"]))
  = [PDict [("role", PStr "system");
            ("content", PStr "You are an NBA expert")];
     PDict [("role", PStr "user");
            ("content",
             PList [PDict [("type", PStr "text");
                           ("text", PStr "Who won the 2020 finals?")]])]].
Proof.
  destruct convert_messages_by_role as (_ & Happ & Hsys & Husr & _ & Hother & _).
  rewrite !Happ, Hsys, Husr, (Hother "tool" "ignored");
    [reflexivity | discriminate | discriminate | discriminate].
Defined.

(** ** Reading the reply (C5) *)

(** C5, as stated, fails: a reply whose [choices] attribute is [None] has
    no element in it and is not a [dict], so the third tier should render
    it; but the test of the first tier takes [len(None)], which raises
    [TypeError], and the endpoint answers 500. *)
Lemma extract_text_unsized_choices_counterexample :
  ~ (forall (py_str : pyobj -> string) (reply : pyobj),
       extract_text py_str reply = three_tiers py_str reply)
  /\ (let reply := PObject "SimpleNamespace" [("choices", PNone)] None in
      extract_text str_as_type_name reply
      = Raised (mkException "TypeError"
                  "object of type 'NoneType' has no len()")
      /\ three_tiers str_as_type_name reply
         = Value (PStr "<SimpleNamespace>")
      /\ fst (chat str_as_type_name refuse_non_str (world_replying reply)
                   (mkChatRequest [mkChatMessage "user" "hi"]))
         = HTTPException 500
             "Chat error: object of type 'NoneType' has no len()").
Proof.
  split.
  - intros H.
    specialize (H str_as_type_name
                  (PObject "SimpleNamespace" [("choices", PNone)] None)).
    discriminate H.
  - repeat split.
Qed.

Lemma has_choices_sized (reply : pyobj) :
  (forall choices, Py.getattr reply "choices" = Value choices ->
                   exists n, Py.len choices = Value n) ->
  has_choices reply = Value (choices_attribute_nonempty reply).
Proof.
  intros H. unfold has_choices, choices_attribute_nonempty, has_elements.
  unfold Py.hasattr, Py.getattr in *.
  destruct reply as [| | | | | | |cls attrs mapping]; try reflexivity.
  destruct (Py.lookup "choices" attrs) as [choices|]; [|reflexivity].
  destruct (H choices eq_refl) as [n Hn]. cbn [bind_result].
  now rewrite Hn.
Qed.

(** C5, amended: for a reply whose [choices] attribute, if it has one,
    has a length, the text is read by the three tiers in their order: by
    attributes when there is a [choices] attribute with at least one
    element, else by keys when the reply is a [dict] with a ['choices']
    key, else as the rendering of the whole reply, and no test raises;
    the endpoint returns the text so read.  For a reply whose [choices]
    attribute has no length, the test of the first tier raises. *)
Theorem extract_text_three_tiers (py_str : pyobj -> string) (reply : pyobj) :
  ((forall choices, Py.getattr reply "choices" = Value choices ->
                    exists n, Py.len choices = Value n) ->
   extract_text py_str reply = three_tiers py_str reply)
  /\ (forall choices e,
        Py.getattr reply "choices" = Value choices ->
        Py.len choices = Raised e ->
        extract_text py_str reply = Raised e)
  /\ (forall validate_non_str w request resp made before model msgs text,
        chat py_str validate_non_str w request = (resp, made) ->
        made = (before ++ [ModelChat model msgs])%list ->
        w before (ModelChat model msgs) = Value reply ->
        extract_text py_str reply = Value (PStr text) ->
        resp = Ok (mkChatResponse text)).
Proof.
  split; [|split].
  - intros H. unfold extract_text, three_tiers.
    now rewrite (has_choices_sized reply H).
  - intros choices e Hattr Hlen. unfold extract_text, has_choices.
    unfold Py.hasattr. unfold Py.getattr in *.
    destruct reply as [| | | | | | |cls attrs mapping]; try discriminate.
    destruct (Py.lookup "choices" attrs); [|discriminate].
    injection Hattr as ->. cbn [bind_result]. now rewrite Hlen.
  - intros validate_non_str w request resp made before model msgs text
      Hchat Hmade Hw Htext.
    rewrite (proj2 (proj2 (chat_run _ _ _ _ _ _ Hchat))
               before model msgs reply Hmade Hw).
    unfold reply_outcome. now rewrite Htext.
Qed.

(** The three tiers on replies of the three shapes, a reply of both the
    first and the second shape, and a reply with an unsized [choices]. *)
Lemma extract_text_three_tiers_witness :
  let by_attr text :=
    PObject "ChatCompletion"
      [("choices",
        PList [PObject "Choice"
                 [("message", PObject "Message" [("content", PStr text)] None)]
                 None])] in
  let by_key text :=
    [("choices",
      PList [PDict [("message", PDict [("content", PStr text)])]])] in
  extract_text str_as_type_name (by_attr "Lakers" None)
  = Value (PStr "Lakers")
  /\ extract_text str_as_type_name (PDict (by_key "Heat"))
     = Value (PStr "Heat")
  /\ extract_text str_as_type_name (PInt 7) = Value (PStr "<int>")
  /\ extract_text str_as_type_name (by_attr "Lakers" (Some (by_key "Heat")))
     = Value (PStr "Lakers")
  /\ extract_text str_as_type_name
       (PObject "SimpleNamespace" [("choices", PInt 3)] None)
     = Raised (mkException "TypeError" "object of type 'int' has no len()")
  /\ fst (chat str_as_type_name refuse_non_str
               (world_replying (PDict (by_key "Heat")))
               (mkChatRequest [mkChatMessage "user" "hi"]))
     = Ok (mkChatResponse "Heat").
Proof.
  intros by_attr by_key.
  assert (Hsized : forall reply,
            (exists choices n, Py.getattr reply "choices" = Value choices
                               /\ Py.len choices = Value n)
            \/ (exists e, Py.getattr reply "choices" = Raised e) ->
            forall choices, Py.getattr reply "choices" = Value choices ->
                            exists n, Py.len choices = Value n).
  { intros reply [(c & n & Hc & Hn) | (e & He)] choices H.
    - exists n. congruence.
    - congruence. }
  split; [|split; [|split; [|split; [|split]]]].
  - rewrite (proj1 (extract_text_three_tiers _ _)); [reflexivity|].
    apply Hsized. left. eexists _, _. split; reflexivity.
  - rewrite (proj1 (extract_text_three_tiers _ _)); [reflexivity|].
    apply Hsized. right. eexists. reflexivity.
  - rewrite (proj1 (extract_text_three_tiers _ _)); [reflexivity|].
    apply Hsized. right. eexists. reflexivity.
  - rewrite (proj1 (extract_text_three_tiers _ _)); [reflexivity|].
    apply Hsized. left. eexists _, _. split; reflexivity.
  - apply (proj1 (proj2 (extract_text_three_tiers _ _)) (PInt 3));
      reflexivity.
  - set (reply := PDict (by_key "Heat")).
    set (request := mkChatRequest [mkChatMessage "user" "hi"]).
    eapply (proj2 (proj2 (extract_text_three_tiers str_as_type_name reply))
              refuse_non_str (world_replying reply) request _ _ _ _ _ "Heat");
      [ apply surjective_pairing | reflexivity | reflexivity | reflexivity ].
Defined.

(** ** Failures of the chat endpoint (C6) *)

(** C6: whatever the world does, the handler answers: with a body, or
    with a 500 whose detail is ["Chat error: "] followed by the text of
    an exception.  When a call the handler makes (reading the
    environment, constructing the credentials, the client or the model,
    invoking the service) raises, the answer is the 500 with the text of
    that exception and the handler makes no call after it; when the
    service replies and reading the reply raises, the answer is the 500
    with the text of that exception; and no run calls the service more
    than once. *)
Theorem chat_failure_is_500 (py_str : pyobj -> string)
    (validate_non_str : pyobj -> Result string) (w : World)
    (request : ChatRequest) (resp : Response ChatResponse)
    (made : list Call) :
  chat py_str validate_non_str w request = (resp, made) ->
  ((exists body, resp = Ok body)
   \/ (exists e, resp = HTTPException 500 ("Chat error: " ++ exc_str e)))
  /\ (forall before c after e,
        made = (before ++ c :: after)%list ->
        w before c = Raised e ->
        resp = HTTPException 500 ("Chat error: " ++ exc_str e)
        /\ after = [])
  /\ (forall before model msgs reply e,
        made = (before ++ [ModelChat model msgs])%list ->
        w before (ModelChat model msgs) = Value reply ->
        extract_text py_str reply = Raised e ->
        resp = HTTPException 500 ("Chat error: " ++ exc_str e))
  /\ (forall before model msgs reply text e,
        made = (before ++ [ModelChat model msgs])%list ->
        w before (ModelChat model msgs) = Value reply ->
        extract_text py_str reply = Value text ->
        make_ChatResponse validate_non_str text = Raised e ->
        resp = HTTPException 500 ("Chat error: " ++ exc_str e))
  /\ (List.length (filter is_ModelChat made) <= 1)%nat.
Proof.
  intros Hchat.
  pose proof (chat_run _ _ _ _ _ _ Hchat) as (Honce & _ & Hreply).
  split; [|split; [|split; [|split]]].
  - unfold chat in Hchat.
    destruct (run w [] (chat_try py_str validate_non_str request))
      as [[body|e] made'].
    + left. exists body. congruence.
    + right. exists e. congruence.
  - intros before c after e Hsplit Hw. unfold chat in Hchat.
    destruct (run w [] (chat_try py_str validate_non_str request))
      as [r made'] eqn:Hrun.
    assert (made' = made) by (destruct r; congruence). subst made'.
    destruct (run_raised_call w _ _ _ _ Hrun before c after e Hsplit)
      as [-> ->]; [simpl; lia | exact Hw |].
    split; [congruence | reflexivity].
  - intros before model msgs reply e Hmade Hw He.
    rewrite (Hreply before model msgs reply Hmade Hw).
    unfold reply_outcome. now rewrite He.
  - intros before model msgs reply text e Hmade Hw Ht He.
    rewrite (Hreply before model msgs reply Hmade Hw).
    unfold reply_outcome. rewrite Ht. cbn [bind_result]. now rewrite He.
  - exact Honce.
Qed.

(** The service times out: the handler answers 500 with the text of the
    failure after one call to the service.  The client cannot be
    constructed: the handler answers 500 and never calls the service. *)
Lemma chat_failure_is_500_witness :
  let request := mkChatRequest [mkChatMessage "user" "hi"] in
  let timed_out := mkException "TimeoutError" "read timed out" in
  let refused := mkException "WMLClientError" "invalid api key" in
  let run_of stage e :=
    chat str_as_type_name refuse_non_str (world_failing stage e PNone)
         request in
  fst (run_of 6%nat timed_out)
  = HTTPException 500 "Chat error: read timed out"
  /\ List.length (filter is_ModelChat (snd (run_of 6%nat timed_out))) = 1%nat
  /\ fst (run_of 3%nat refused)
     = HTTPException 500 "Chat error: invalid api key"
  /\ filter is_ModelChat (snd (run_of 3%nat refused)) = [].
Proof.
  intros request timed_out refused run_of.
  split; [|split; [reflexivity|split; [|reflexivity]]].
  - pose proof (chat_failure_is_500 _ _ _ _ _ _
                  (surjective_pairing (run_of 6%nat timed_out)))
      as (_ & Hcall & _).
    eapply (Hcall _ _ [] timed_out); [reflexivity | reflexivity].
  - pose proof (chat_failure_is_500 _ _ _ _ _ _
                  (surjective_pairing (run_of 3%nat refused)))
      as (_ & Hcall & _).
    eapply (Hcall _ _ [] refused); [reflexivity | reflexivity].
Defined.

(** * Further properties of the handlers *)

(** ** Teams by id and the listing of teams *)

Lemma unique_key {A : Type} (key : A -> Z) (l : list A) (x y : A) :
  NoDup (map key l) -> In x l -> In y l -> key x = key y -> x = y.
Proof.
  induction l as [|a l IH]; intros Hnd Hx Hy Hk; [contradiction|].
  simpl in Hnd. inversion Hnd as [|? ? Hnotin Hnd']; subst.
  destruct Hx as [-> | Hx], Hy as [-> | Hy].
  - reflexivity.
  - elim Hnotin. rewrite Hk. now apply in_map.
  - elim Hnotin. rewrite <- Hk. now apply in_map.
  - now apply IH.
Qed.

Lemma team_with_id_some (db : Tables) (team_id : Z) (team : Team) :
  team_with_id db team_id = Some team ->
  In team (team_data db) /\ id team = team_id.
Proof.
  unfold team_with_id. intros H. apply find_some in H.
  destruct H as [Hin Hid]. split; [exact Hin | now apply Z.eqb_eq].
Qed.

Lemma team_with_id_present (db : Tables) (team : Team) :
  In team (team_data db) ->
  exists found, team_with_id db (id team) = Some found
                /\ id found = id team.
Proof.
  intros Hin. unfold team_with_id.
  destruct (find_first_some (fun t => id t =? id team) (team_data db) team Hin)
    as (found & Hfind & Hid); [apply Z.eqb_refl|].
  exists found. split; [exact Hfind | now apply Z.eqb_eq].
Qed.

Lemma team_with_id_unique (db : Tables) (team : Team) :
  NoDup (map id (team_data db)) -> In team (team_data db) ->
  team_with_id db (id team) = Some team.
Proof.
  intros Hnd Hin. unfold team_with_id.
  apply find_unique; [exact Hin | apply Z.eqb_refl |].
  intros other Ho Hid. apply Z.eqb_eq in Hid.
  now apply (unique_key id (team_data db)).
Qed.

(** X1: a team returned by [get_team_by_id] is in the table and carries
    the id asked for; an id carried by a team of the table is answered
    with a team of that id, the first one in the table, which is the team
    itself when the ids of the table are distinct; and an id carried by
    no team is answered with 404 and a detail that shows the id. *)
Theorem get_team_by_id_lookup (db : Tables) (team_id : Z) :
  (forall team, get_team_by_id db team_id = Ok team ->
                In team (team_data db) /\ id team = team_id)
  /\ (forall team, In team (team_data db) -> id team = team_id ->
        exists found, get_team_by_id db team_id = Ok found
                      /\ id found = team_id)
  /\ (forall earlier team later,
        team_data db = (earlier ++ team :: later)%list ->
        id team = team_id ->
        (forall other, In other earlier -> id other <> team_id) ->
        get_team_by_id db team_id = Ok team)
  /\ (NoDup (map id (team_data db)) ->
      forall team, In team (team_data db) -> id team = team_id ->
                   get_team_by_id db team_id = Ok team)
  /\ ((forall team, In team (team_data db) -> id team <> team_id) ->
      get_team_by_id db team_id
      = HTTPException 404
          ("Team with ID " ++ Text.str_of_int team_id ++ " not found")).
Proof.
  unfold get_team_by_id. split; [|split; [|split; [|split]]].
  - intros team H.
    destruct (team_with_id db team_id) as [found|] eqn:E; [|discriminate].
    injection H as <-. now apply team_with_id_some.
  - intros team Hin <-.
    destruct (team_with_id_present db team Hin) as (found & -> & Hid).
    now exists found.
  - intros earlier team later Htable Hid Hearlier.
    unfold team_with_id. rewrite Htable.
    assert (Hfind : forall l, (forall other, In other l -> id other <> team_id) ->
              find (fun t => id t =? team_id) (l ++ team :: later)%list
              = Some team).
    { induction l as [|a l IH]; intros Hl; simpl.
      - apply Z.eqb_eq in Hid. now rewrite Hid.
      - assert (Ha : id a <> team_id) by (apply Hl; now left).
        apply Z.eqb_neq in Ha. rewrite Ha. apply IH.
        intros other Ho. apply Hl. now right. }
    now rewrite Hfind.
  - intros Hnd team Hin <-. now rewrite team_with_id_unique.
  - intros Hnone.
    destruct (team_with_id db team_id) as [found|] eqn:E; [|reflexivity].
    apply team_with_id_some in E. destruct E as [Hin Hid].
    now elim (Hnone found Hin).
Qed.

(** Two teams carry the id 7: the first one answers; the id 9 is
    unknown. *)
Lemma get_team_by_id_lookup_witness :
  let first := mkTeam 7 "Heat" [] in
  let second := mkTeam 7 "Magic" [] in
  let db := mkTables [mkTeam 2 "Celtics" []; first; second] [] [] [] in
  get_team_by_id db 7 = Ok first
  /\ (exists found, get_team_by_id db 7 = Ok found /\ id found = 7)
  /\ get_team_by_id (mkTables [mkTeam 2 "Celtics" []; first] [] [] []) 7
     = Ok first
  /\ get_team_by_id db 9 = HTTPException 404 "Team with ID 9 not found"
  /\ In first (team_data db).
Proof.
  intros first second db.
  split; [|split; [|split; [|split]]].
  - apply (proj1 (proj2 (proj2 (get_team_by_id_lookup db 7)))
             [mkTeam 2 "Celtics" []] first [second]);
      [reflexivity | reflexivity |].
    intros other [<- | []]. discriminate.
  - apply (proj1 (proj2 (get_team_by_id_lookup db 7)) second);
      [right; right; left; reflexivity | reflexivity].
  - apply (proj1 (proj2 (proj2 (proj2 (get_team_by_id_lookup _ 7)))));
      [|right; left; reflexivity | reflexivity].
    simpl. repeat constructor; simpl; intuition discriminate.
  - apply (proj2 (proj2 (proj2 (proj2 (get_team_by_id_lookup db 9))))).
    intros team [<- | [<- | [<- | []]]]; discriminate.
  - apply (proj1 (get_team_by_id_lookup db 7) first).
    apply (proj1 (proj2 (proj2 (get_team_by_id_lookup db 7)))
             [mkTeam 2 "Celtics" []] first [second]);
      [reflexivity | reflexivity |].
    intros other [<- | []]. discriminate.
Defined.

(** X2: [get_all_teams] lists the ids and the names of the table in
    table order, and every entry it lists can be fetched: by its id
    [get_team_by_id] and [get_team_roster] answer with a team of that id
    and with a roster, and by its name [get_team_by_name] answers with a
    team of the table whose name has the lower-case form of the listed
    name; when the ids of the table are distinct the team fetched by id
    is the listed one. *)
Theorem get_all_teams_fetchable {cm : CaseMapping} (db : Tables) :
  map info_id (get_all_teams db) = map id (team_data db)
  /\ map info_name (get_all_teams db) = map name (team_data db)
  /\ (forall info, In info (get_all_teams db) ->
        (exists team, get_team_by_id db (info_id info) = Ok team
                      /\ id team = info_id info
                      /\ get_team_roster db (info_id info) = Ok (roster team))
        /\ (exists team, get_team_by_name db (info_name info) = Ok team
                         /\ In team (team_data db)
                         /\ str_lower (name team)
                            = str_lower (info_name info)))
  /\ (NoDup (map id (team_data db)) ->
      forall info, In info (get_all_teams db) ->
        exists team, get_team_by_id db (info_id info) = Ok team
                     /\ In team (team_data db)
                     /\ name team = info_name info).
Proof.
  unfold get_all_teams. split; [|split; [|split]].
  - rewrite map_map. reflexivity.
  - rewrite map_map. reflexivity.
  - intros info Hin. apply in_map_iff in Hin.
    destruct Hin as (team & <- & Hin). simpl. split.
    + destruct (team_with_id_present db team Hin) as (found & Hfind & Hid).
      exists found. unfold get_team_by_id, get_team_roster.
      rewrite Hfind. now repeat split.
    + destruct (get_team_by_name_first db team (name team) Hin eq_refl)
        as (found & Hfind & Hf & Hl).
      exists found. unfold get_team_by_name. rewrite Hfind.
      now repeat split.
  - intros Hnd info Hin. apply in_map_iff in Hin.
    destruct Hin as (team & <- & Hin). simpl.
    exists team. unfold get_team_by_id.
    rewrite (team_with_id_unique db team Hnd Hin). now repeat split.
Qed.

(** The second entry of the listing of two teams is fetched by its id
    and by its name. *)
Lemma get_all_teams_fetchable_witness :
  let cm := ascii_case in
  let lakers := mkTeam 14 "Lakers" [] in
  let db := mkTables [mkTeam 2 "Celtics" []; lakers] [] [] [] in
  get_all_teams db = [mkTeamInfo 2 "Celtics"; mkTeamInfo 14 "Lakers"]
  /\ (exists team, get_team_by_id db 14 = Ok team
                   /\ In team (team_data db) /\ name team = "Lakers")
  /\ (exists team, get_team_by_name db "Lakers" = Ok team
                   /\ In team (team_data db)
                   /\ str_lower (name team) = str_lower "Lakers").
Proof.
  intros cm lakers db.
  assert (Hin : In (mkTeamInfo 14 "Lakers") (get_all_teams db))
    by (right; left; reflexivity).
  split; [reflexivity|]. split.
  - apply (proj2 (proj2 (proj2 (get_all_teams_fetchable (cm := cm) db)))
             ltac:(simpl; repeat constructor; simpl; intuition discriminate)
             (mkTeamInfo 14 "Lakers") Hin).
  - apply (proj2 (proj1 (proj2 (proj2 (get_all_teams_fetchable (cm := cm) db)))
                   (mkTeamInfo 14 "Lakers") Hin)).
Defined.

(** ** The standing endpoint beside the team endpoint *)

(** X3: [get_team_standing] looks the team up as [get_team_by_id] does:
    on an id for which [get_team_by_id] raises it raises the same
    exception, a standing it returns goes with the name of the team
    [get_team_by_id] returns and is an entry of
    [get_eastern_standings], and an exception it raises is a 404. *)
Theorem get_team_standing_after_team (db : Tables) (team_id : Z) :
  (forall code detail,
     get_team_by_id db team_id = HTTPException code detail ->
     get_team_standing db team_id = HTTPException code detail)
  /\ (forall body,
        get_team_standing db team_id = Ok body ->
        exists team,
          get_team_by_id db team_id = Ok team
          /\ ts_team body = name team
          /\ In (ts_standing body) (get_eastern_standings db))
  /\ match get_team_standing db team_id with
     | Ok _ => True
     | HTTPException code _ => code = 404
     end.
Proof.
  unfold get_team_standing, get_team_by_id, get_eastern_standings.
  destruct (team_with_id db team_id) as [team|].
  - destruct (find _ (standings_data_eastern db)) as [s|] eqn:E.
    + split; [discriminate|]. split; [|exact I].
      intros body [= <-]. exists team. simpl.
      apply find_some in E. now repeat split.
    + split; [discriminate|]. split; [discriminate|reflexivity].
  - split; [now intros code detail [= <- <-]|].
    split; [discriminate|reflexivity].
Qed.

(** An unknown id gets the 404 of the team lookup; the Knicks get their
    Eastern entry. *)
Lemma get_team_standing_after_team_witness :
  let knicks := mkStanding "Knicks" 51 31 "0.622" "-" "6-4" "W2" in
  let db := mkTables [mkTeam 20 "Knicks" []] [knicks] [] [] in
  get_team_standing db 99 = HTTPException 404 "Team with ID 99 not found"
  /\ (exists team, get_team_by_id db 20 = Ok team
                   /\ "Knicks" = name team
                   /\ In knicks (get_eastern_standings db)).
Proof.
  intros knicks db.
  pose proof (get_team_standing_after_team db 99) as (Hsame & _ & _).
  pose proof (get_team_standing_after_team db 20) as (_ & Hok & _).
  split; [apply (Hsame 404 "Team with ID 99 not found" eq_refl)|].
  apply (Hok (mkTeamStanding "Knicks" knicks) eq_refl).
Defined.

(** ** Letter case of the search filters *)

Lemma case_variant_truthy (a b : string) :
  Text.case_variant a b = true -> Text.truthy a = Text.truthy b.
Proof. destruct a, b; simpl; intros H; congruence. Qed.

Lemma truthy_and_same (fold : string -> string) (a b : option string)
    (hay : string) :
  (forall x y, Text.case_variant x y = true -> fold x = fold y) ->
  same_filter a b ->
  truthy_and a (fun v => negb (Text.contains (fold v) hay))
  = truthy_and b (fun v => negb (Text.contains (fold v) hay)).
Proof.
  intros Hfold.
  destruct a as [x|], b as [y|]; simpl; intros H; try contradiction;
    [|reflexivity].
  now rewrite (case_variant_truthy x y H), (Hfold x y H).
Qed.

(** X4: [search_players] answers the same when a filter is replaced by a
    variant of it in the case of its ASCII letters, in any of the three
    positions; and it answers the same on a player whose name, position
    and country differ from another's in the case of ASCII letters
    only. *)
Theorem search_players_ignores_case {cm : CaseMapping}
    (laws : CaseLaws cm) (db : Tables) (n n' p p' c c' : option string) :
  same_filter n n' -> same_filter p p' -> same_filter c c' ->
  search_players db n p c = search_players db n' p' c'
  /\ (forall a b,
        Text.case_variant (player_name a) (player_name b) = true ->
        Text.case_variant (position a) (position b) = true ->
        Text.case_variant (country a) (country b) = true ->
        player_match n p c a = player_match n p c b).
Proof.
  intros Hn Hp Hc. split.
  - apply search_players_ext. intros player. unfold player_match.
    now rewrite (truthy_and_same str_lower n n' _ (lower_variant cm laws)),
      (truthy_and_same str_upper p p' _ (upper_variant cm laws)),
      (truthy_and_same str_lower c c' _ (lower_variant cm laws)).
  - intros a b Ha Hb Hcb. unfold player_match.
    apply (lower_variant cm laws) in Ha, Hcb.
    apply (upper_variant cm laws) in Hb.
    now rewrite Ha, Hb, Hcb.
Qed.

(** ["JALEN"] and ["jalen"], ["f"] and ["F"], ["usa"] and ["Usa"] give the
    same answer. *)
Lemma search_players_ignores_case_witness :
  let cm := ascii_case in
  let p := mkPlayer "Jalen Williams" "F" "6-5" "211" "Santa Clara" "USA" in
  let db := mkTables [mkTeam 1 "Thunder" [p]] [] [] [] in
  search_players db (Some "JALEN") (Some "f") (Some "usa")
  = search_players db (Some "jalen") (Some "F") (Some "Usa")
  /\ search_players db (Some "jalen") (Some "F") (Some "Usa")
     = Ok (mkPlayerSearch 1 [mkPlayerHit p "Thunder"]).
Proof.
  intros cm p db. subst cm. split; [|reflexivity].
  apply (proj1 (search_players_ignores_case ascii_case_laws db
                  (Some "JALEN") (Some "jalen") (Some "f") (Some "F")
                  (Some "usa") (Some "Usa") eq_refl eq_refl eq_refl)).
Defined.

(** X5: [search_games] answers the same when the team filter is replaced
    by a variant of it in the case of its ASCII letters, whereas the
    date filter is compared as it is: a non-empty date that differs from
    the date of a game, even by letter case only, leaves that game
    out. *)
Theorem search_games_ignores_team_case {cm : CaseMapping}
    (laws : CaseLaws cm) (db : Tables) (t t' d : option string) :
  same_filter t t' ->
  search_games db t d = search_games db t' d
  /\ (forall game text,
        text <> EmptyString -> text <> date game ->
        ~ includes (search_games db t (Some text)) game).
Proof.
  intros Ht. split.
  - apply search_games_ext. intros game. unfold game_match.
    now rewrite (truthy_and_same str_lower t t' _ (lower_variant cm laws)).
  - intros game text Hne Hdiff Hin.
    apply search_games_includes_loop in Hin.
    rewrite search_games_loop_eq in Hin. apply filter_In in Hin.
    destruct Hin as [_ Hm]. apply (game_match_iff laws) in Hm.
    destruct Hm as [_ Hd]. now elim Hdiff; apply Hd.
Qed.

(** ["LAKERS"] and ["lakers"] find the same game; the date ["oct 21"]
    does not find the game dated ["Oct 21"]. *)
Lemma search_games_ignores_team_case_witness :
  let cm := ascii_case in
  let g := mkGame "Lakers" "Warriors" "Oct 21" "Los Angeles" in
  let db := mkTables [] [] [] [g] in
  search_games db (Some "LAKERS") None = search_games db (Some "lakers") None
  /\ search_games db (Some "lakers") None = Ok [g]
  /\ ~ includes (search_games db (Some "LAKERS") (Some "oct 21")) g.
Proof.
  intros cm g db. subst cm.
  pose proof (search_games_ignores_team_case ascii_case_laws db
                (Some "LAKERS") (Some "lakers") None eq_refl) as [Hsame _].
  pose proof (search_games_ignores_team_case ascii_case_laws db
                (Some "LAKERS") (Some "lakers") None eq_refl) as [_ Hdate].
  split; [exact Hsame|]. split; [reflexivity|].
  apply (Hdate g "oct 21"); discriminate.
Defined.

(** ** What the searches return *)

Lemma occurs_in_app_l (t a b : string) :
  Text.occurs_in t a -> Text.occurs_in t (a ++ b).
Proof.
  intros (pre & post & ->). exists pre, (post ++ b).
  now rewrite !TextFacts.append_assoc.
Qed.

Lemma occurs_in_app_r (t a b : string) :
  Text.occurs_in t b -> Text.occurs_in t (a ++ b).
Proof.
  intros (pre & post & ->). exists (a ++ pre), post.
  now rewrite !TextFacts.append_assoc.
Qed.

Lemma game_match_within {cm : CaseMapping} (t : string) (d : option string)
    (game : Game) :
  Text.occurs_in (str_lower t)
    (str_lower (team1 game) ++ str_lower (team2 game)) ->
  date_required d (date game) ->
  game_match (Some t) d game = true.
Proof.
  intros Hocc Hd. unfold game_match.
  apply TextFacts.contains_iff in Hocc.
  apply truthy_and_date in Hd. rewrite Hd.
  unfold truthy_and at 1. rewrite Hocc. cbn [negb].
  now rewrite andb_false_r.
Qed.

(** X6: a game of the table is included by [search_games] when the
    lower-cased team filter occurs in the lower-cased [team1] alone or
    in the lower-cased [team2] alone, provided the date filter, if
    supplied and not empty, is the game's date; on ASCII texts, when the
    team filter occurs in [team1] or in [team2] up to the case of the
    letters. *)
Theorem search_games_either_team {cm : CaseMapping} (db : Tables)
    (t : string) (d : option string) (game : Game) :
  In game (games_data db) ->
  date_required d (date game) ->
  (Text.occurs_in (str_lower t) (str_lower (team1 game))
   \/ Text.occurs_in (str_lower t) (str_lower (team2 game)) ->
   includes (search_games db (Some t) d) game)
  /\ (CaseLaws cm ->
      Text.is_ascii t = true ->
      Text.is_ascii (team1 game) = true ->
      Text.is_ascii (team2 game) = true ->
      Text.occurs_nocase t (team1 game) \/ Text.occurs_nocase t (team2 game) ->
      includes (search_games db (Some t) d) game).
Proof.
  intros Hin Hd.
  assert (Hfold : Text.occurs_in (str_lower t) (str_lower (team1 game))
                  \/ Text.occurs_in (str_lower t) (str_lower (team2 game)) ->
                  includes (search_games db (Some t) d) game).
  { intros Hocc.
    apply search_games_includes_loop. rewrite search_games_loop_eq.
    apply filter_In. split; [exact Hin|].
    apply game_match_within; [|exact Hd].
    destruct Hocc as [H | H];
      [now apply occurs_in_app_l | now apply occurs_in_app_r]. }
  split; [exact Hfold|].
  intros laws Ht H1 H2 Hocc. apply Hfold.
  rewrite (lower_ascii cm laws _ Ht), (lower_ascii cm laws _ H1),
    (lower_ascii cm laws _ H2).
  now rewrite !occurs_in_ascii_lower.
Qed.

(** ["WARR"] finds the game in which the Warriors are the visitors. *)
Lemma search_games_either_team_witness :
  let cm := ascii_case in
  let g := mkGame "Lakers" "Warriors" "Oct 21" "Los Angeles" in
  let db := mkTables [] [] [] [g; mkGame "Heat" "Magic" "Oct 22" "Miami"] in
  includes (search_games db (Some "WARR") (Some "Oct 21")) g
  /\ includes (search_games db (Some "lAkE") (Some "Oct 21")) g.
Proof.
  intros cm g db.
  assert (Hin : In g (games_data db)) by (left; reflexivity).
  assert (Hd : date_required (Some "Oct 21") (date g))
    by (intros d [= <-] _; reflexivity).
  split.
  - apply (proj1 (search_games_either_team (cm := cm) db "WARR"
                    (Some "Oct 21") g Hin Hd)).
    right. exists EmptyString, "iors". reflexivity.
  - apply (proj2 (search_games_either_team (cm := cm) db "lAkE"
                    (Some "Oct 21") g Hin Hd) ascii_case_laws);
      [reflexivity | reflexivity | reflexivity |].
    left. exists EmptyString, "Lake", "rs". split; reflexivity.
Defined.

Lemma filter_map_swap {A B : Type} (f : A -> B) (p : B -> bool) (l : list A) :
  filter p (map f l) = map f (filter (fun x => p (f x)) l).
Proof.
  induction l as [|x l IH]; simpl; [reflexivity|].
  rewrite IH. now destruct (p (f x)).
Qed.

Lemma filter_flat_map_swap {A B : Type} (f : A -> list B) (p : B -> bool)
    (l : list A) :
  filter p (flat_map f l) = flat_map (fun x => filter p (f x)) l.
Proof.
  induction l as [|x l IH]; simpl; [reflexivity|].
  now rewrite filter_app, IH.
Qed.

Lemma search_players_loop_filter {cm : CaseMapping} (db : Tables) (n p c : option string) :
  search_players_loop db n p c
  = filter (fun hit => player_match n p c (hit_player hit)) (all_players db).
Proof.
  rewrite search_players_loop_eq. unfold all_players.
  rewrite filter_flat_map_swap. apply flat_map_ext. intros team.
  unfold hits_of. now rewrite filter_map_swap.
Qed.

(** X7: a body returned by [search_players] holds the listing of all
    players with the players that fail a filter removed, order and
    repetitions kept, and its count is the length of that list and is
    positive; a list returned by [search_games] is the list of
    [get_all_games] with the games that fail a filter removed, and is
    not empty. *)
Theorem search_results_shape {cm : CaseMapping} (db : Tables) :
  (forall n p c body,
     search_players db n p c = Ok body ->
     results body
     = filter (fun hit => player_match n p c (hit_player hit))
              (all_players db)
     /\ count body = Z.of_nat (List.length (results body))
     /\ 0 < count body)
  /\ (forall t d games,
        search_games db t d = Ok games ->
        games = filter (game_match t d) (get_all_games db)
        /\ games <> []).
Proof.
  split.
  - intros n p c body. unfold search_players.
    rewrite <- search_players_loop_filter.
    destruct (search_players_loop db n p c) as [|hit rest]; [discriminate|].
    intros [= <-]. cbn [results count].
    split; [reflexivity|]. split; [reflexivity|].
    cbn [List.length]. lia.
  - intros t d games. unfold search_games, get_all_games.
    rewrite <- search_games_loop_eq.
    destruct (search_games_loop db t d) as [|g rest]; [discriminate|].
    intros [= <-]. split; [reflexivity | discriminate].
Qed.

(** Two of three players are forwards: the body holds them in table
    order with the count 2. *)
Lemma search_results_shape_witness :
  let cm := ascii_case in
  let a := mkPlayer "Shai Gilgeous-Alexander" "G" "6-6" "195" "Kentucky" "Canada" in
  let b := mkPlayer "Jalen Williams" "F" "6-5" "211" "Santa Clara" "USA" in
  let v := mkPlayer "Victor Wembanyama" "F-C" "7-3" "235" "Metropolitans 92" "France" in
  let g := mkGame "Thunder" "Spurs" "Oct 21" "Oklahoma City" in
  let db := mkTables [mkTeam 1 "Thunder" [a; b]; mkTeam 2 "Spurs" [v]]
                     [] [] [g] in
  let body := mkPlayerSearch 2 [mkPlayerHit b "Thunder"; mkPlayerHit v "Spurs"] in
  (results body
   = filter (fun hit => player_match None (Some "f") None (hit_player hit))
            (all_players db)
   /\ count body = Z.of_nat (List.length (results body))
   /\ 0 < count body)
  /\ ([g] = filter (game_match (Some "spurs") None) (get_all_games db)
      /\ [g] <> []).
Proof.
  intros cm a b v g db body. subst cm. split.
  - apply (proj1 (search_results_shape db) None (Some "f") None body).
    reflexivity.
  - apply (proj2 (search_results_shape db) (Some "spurs") None [g]).
    reflexivity.
Defined.

Lemma finds_loop {cm : CaseMapping} (db : Tables) (n p c : option string) (hit : PlayerHit) :
  finds (search_players db n p c) hit
  <-> In hit (search_players_loop db n p c).
Proof.
  unfold search_players.
  destruct (search_players_loop db n p c); simpl; tauto.
Qed.

Lemma finds_iff {cm : CaseMapping} (db : Tables) (n p c : option string) (hit : PlayerHit) :
  finds (search_players db n p c) hit
  <-> In hit (all_players db)
      /\ player_match n p c (hit_player hit) = true.
Proof.
  now rewrite finds_loop, search_players_loop_filter, filter_In.
Qed.

Lemma player_match_conj {cm : CaseMapping} (n p c : option string) (player : Player) :
  player_match n p c player
  = player_match n None None player
    && player_match None p None player
    && player_match None None c player.
Proof.
  unfold player_match. simpl.
  destruct (truthy_and n _), (truthy_and p _), (truthy_and c _); reflexivity.
Qed.

Lemma game_match_conj {cm : CaseMapping} (t d : option string) (game : Game) :
  game_match t d game = game_match t None game && game_match None d game.
Proof.
  unfold game_match. simpl.
  destruct (truthy_and t _), (truthy_and d _); reflexivity.
Qed.

(** X8: the filters of [search_players] are joined by "and": the search
    with several filters finds a pair exactly when each of the searches
    with one of the filters alone finds it; so a further filter never
    adds a pair. *)
Theorem search_players_filters_conjoin {cm : CaseMapping} (db : Tables)
    (n p c : option string) (hit : PlayerHit) :
  finds (search_players db n p c) hit
  <-> finds (search_players db n None None) hit
      /\ finds (search_players db None p None) hit
      /\ finds (search_players db None None c) hit.
Proof.
  rewrite !finds_iff, (player_match_conj n p c), !andb_true_iff. tauto.
Qed.

(** X9: the two filters of [search_games] are joined by "and": the
    search with both includes a game exactly when the search by team
    alone and the search by date alone both include it. *)
Theorem search_games_filters_conjoin {cm : CaseMapping} (db : Tables) (t d : option string)
    (game : Game) :
  includes (search_games db t d) game
  <-> includes (search_games db t None) game
      /\ includes (search_games db None d) game.
Proof.
  rewrite !search_games_includes_loop, !search_games_loop_eq, !filter_In.
  rewrite (game_match_conj t d), andb_true_iff. tauto.
Qed.

(** X10: each search raises 404 only when nothing passes its filters:
    [search_players] raises exactly when every player of every roster
    fails a filter, [search_games] exactly when every game of the table
    does; and neither raises any other status. *)
Theorem search_404_iff_no_match {cm : CaseMapping} (db : Tables) :
  (forall n p c,
     (is_status 404 (search_players db n p c) = true
      <-> forall team player,
            In team (team_data db) -> In player (roster team) ->
            player_match n p c player = false)
     /\ ((exists body, search_players db n p c = Ok body)
         \/ is_status 404 (search_players db n p c) = true))
  /\ (forall t d,
        (is_status 404 (search_games db t d) = true
         <-> forall game, In game (games_data db) ->
                          game_match t d game = false)
        /\ ((exists games, search_games db t d = Ok games)
            \/ is_status 404 (search_games db t d) = true)).
Proof.
  split.
  - intros n p c. split.
    + split.
      * intros H team player Hteam Hplayer.
        destruct (player_match n p c player) eqn:Hm; [|reflexivity].
        assert (Hin : In (mkPlayerHit player (name team))
                         (search_players_loop db n p c)).
        { rewrite search_players_loop_eq. apply in_flat_map.
          exists team. split; [exact Hteam|]. unfold hits_of.
          apply (in_map (fun q => mkPlayerHit q (name team))).
          apply filter_In. now split. }
        unfold search_players in H.
        destruct (search_players_loop db n p c); [contradiction|discriminate].
      * intros H. unfold search_players.
        rewrite search_players_loop_eq, flat_map_nil; [reflexivity|].
        intros team Hteam. unfold hits_of.
        rewrite filter_nil; [reflexivity|]. intros player. now apply H.
    + unfold search_players.
      destruct (search_players_loop db n p c);
        [right; reflexivity | left; eexists; reflexivity].
  - intros t d. split.
    + split.
      * intros H game Hin.
        destruct (game_match t d game) eqn:Hm; [|reflexivity].
        assert (Hg : In game (search_games_loop db t d)).
        { rewrite search_games_loop_eq. apply filter_In. now split. }
        unfold search_games in H.
        destruct (search_games_loop db t d); [contradiction|discriminate].
      * intros H. unfold search_games.
        now rewrite search_games_loop_eq, filter_nil.
    + unfold search_games.
      destruct (search_games_loop db t d);
        [right; reflexivity | left; eexists; reflexivity].
Qed.

(** Both filters find Williams; the country filter alone finds him too,
    and the name filter ["shai"] with it finds nobody. *)
Lemma search_players_filters_conjoin_witness :
  let cm := ascii_case in
  let a := mkPlayer "Shai Gilgeous-Alexander" "G" "6-6" "195" "Kentucky" "Canada" in
  let b := mkPlayer "Jalen Williams" "F" "6-5" "211" "Santa Clara" "USA" in
  let db := mkTables [mkTeam 1 "Thunder" [a; b]] [] [] [] in
  finds (search_players db (Some "jalen") None (Some "usa"))
        (mkPlayerHit b "Thunder")
  /\ ~ finds (search_players db (Some "shai") None (Some "usa"))
             (mkPlayerHit b "Thunder").
Proof.
  intros cm a b db. subst cm. split.
  - apply (proj2 (search_players_filters_conjoin db (Some "jalen") None
                    (Some "usa") (mkPlayerHit b "Thunder"))).
    simpl. intuition.
  - intros H.
    apply (proj1 (search_players_filters_conjoin db (Some "shai") None
                    (Some "usa") (mkPlayerHit b "Thunder"))) in H.
    destruct H as [H _]. simpl in H. destruct H as [H | []].
    discriminate H.
Defined.

(** The game is found by team and by date, hence by both. *)
Lemma search_games_filters_conjoin_witness :
  let cm := ascii_case in
  let g := mkGame "Lakers" "Warriors" "Oct 21" "Los Angeles" in
  let db := mkTables [] [] [] [g; mkGame "Heat" "Magic" "Oct 22" "Miami"] in
  includes (search_games db (Some "lakers") (Some "Oct 21")) g.
Proof.
  intros cm g db. subst cm.
  apply (proj2 (search_games_filters_conjoin db (Some "lakers")
                  (Some "Oct 21") g)).
  simpl. intuition.
Defined.

(** Nobody is from Spain: 404; a game is played on ["Oct 21"]: the
    search does not raise. *)
Lemma search_404_iff_no_match_witness :
  let cm := ascii_case in
  let b := mkPlayer "Jalen Williams" "F" "6-5" "211" "Santa Clara" "USA" in
  let g := mkGame "Lakers" "Warriors" "Oct 21" "Los Angeles" in
  let db := mkTables [mkTeam 1 "Thunder" [b]] [] [] [g] in
  is_status 404 (search_players db None None (Some "Spain")) = true
  /\ game_match None (Some "Oct 22") g = false.
Proof.
  intros cm b g db. subst cm. split.
  - apply (proj2 (proj1 (proj1 (search_404_iff_no_match db)
                           None None (Some "Spain")))).
    intros team player [<- | []] [<- | []]. reflexivity.
  - apply (proj1 (proj1 (proj2 (search_404_iff_no_match db)
                           None (Some "Oct 22"))));
      [reflexivity | left; reflexivity].
Defined.

(** ** Rosters and the player search *)

Lemma in_all_players (db : Tables) (hit : PlayerHit) :
  In hit (all_players db)
  <-> exists team, In team (team_data db)
                   /\ In (hit_player hit) (roster team)
                   /\ hit_team hit = name team.
Proof.
  unfold all_players. rewrite in_flat_map. split.
  - intros (team & Hteam & Hin). apply in_map_iff in Hin.
    destruct Hin as (player & <- & Hplayer). now exists team.
  - intros (team & Hteam & Hplayer & Hname). exists team.
    split; [exact Hteam|]. apply in_map_iff.
    exists (hit_player hit). split; [|exact Hplayer].
    destruct hit; simpl in *. now subst.
Qed.

(** X11: the search without filters and the roster endpoint show the
    same players: a player of a roster returned by [get_team_roster] is
    found by the search without filters, paired with the name of the
    team [get_team_by_id] returns for that id; and a pair found by any
    search names a team of the table whose roster holds the player, and
    [get_team_by_name] answers that name with a team of the table whose
    name has its lower-case form. *)
Theorem roster_players_are_searchable {cm : CaseMapping} (db : Tables) :
  (forall team_id team players player,
     get_team_by_id db team_id = Ok team ->
     get_team_roster db team_id = Ok players ->
     In player players ->
     finds (search_players db None None None)
           (mkPlayerHit player (name team)))
  /\ (forall n p c hit,
        finds (search_players db n p c) hit ->
        (exists team, In team (team_data db)
                      /\ name team = hit_team hit
                      /\ In (hit_player hit) (roster team))
        /\ (exists found, get_team_by_name db (hit_team hit) = Ok found
                          /\ In found (team_data db)
                          /\ str_lower (name found)
                             = str_lower (hit_team hit))).
Proof.
  split.
  - intros team_id team players player Hteam Hroster Hin.
    unfold get_team_by_id, get_team_roster in *.
    destruct (team_with_id db team_id) as [found|] eqn:E; [|discriminate].
    injection Hteam as ->. injection Hroster as <-.
    apply team_with_id_some in E. destruct E as [Ht _].
    apply finds_iff. split; [|reflexivity].
    apply in_all_players. now exists team.
  - intros n p c hit H. apply finds_iff in H. destruct H as [H _].
    apply in_all_players in H. destruct H as (team & Hteam & Hplayer & Hname).
    split; [now exists team|].
    destruct (get_team_by_name_first db team (hit_team hit) Hteam)
      as (found & Hfind & Hf & Hl); [now rewrite Hname|].
    exists found. unfold get_team_by_name. rewrite Hfind.
    split; [reflexivity|]. split; [exact Hf|]. now rewrite Hl, Hname.
Qed.

(** Williams is on the roster of team 1 and is found with ["Thunder"];
    the pair found for ["jalen"] leads back to the Thunder. *)
Lemma roster_players_are_searchable_witness :
  let cm := ascii_case in
  let b := mkPlayer "Jalen Williams" "F" "6-5" "211" "Santa Clara" "USA" in
  let thunder := mkTeam 1 "Thunder" [b] in
  let db := mkTables [thunder; mkTeam 2 "Spurs" []] [] [] [] in
  finds (search_players db None None None) (mkPlayerHit b "Thunder")
  /\ (exists found, get_team_by_name db "Thunder" = Ok found
                    /\ In found (team_data db)
                    /\ str_lower (name found) = str_lower "Thunder").
Proof.
  intros cm b thunder db. subst cm. split.
  - apply (proj1 (roster_players_are_searchable db) 1 thunder [b] b);
      [reflexivity | reflexivity | left; reflexivity].
  - apply (proj2 (roster_players_are_searchable db)
             (Some "jalen") None None (mkPlayerHit b "Thunder")).
    left. reflexivity.
Defined.

(** ** More on the outbound messages *)

Lemma convert_message_some (msg : ChatMessage) :
  recognised (role msg) = true ->
  exists out, convert_message msg = Some out.
Proof.
  unfold recognised, convert_message. intros H.
  destruct (String.eqb (role msg) "system"); [eexists; reflexivity|].
  destruct (String.eqb (role msg) "user"); [eexists; reflexivity|].
  destruct (String.eqb (role msg) "assistant"); [eexists; reflexivity|].
  discriminate.
Qed.

Lemma convert_message_inj (m1 m2 : ChatMessage) (out : pyobj) :
  convert_message m1 = Some out -> convert_message m2 = Some out ->
  m1 = m2.
Proof.
  unfold convert_message.
  destruct m1 as [r1 c1], m2 as [r2 c2]. simpl.
  destruct (String.eqb r1 "system") eqn:E1;
    [|destruct (String.eqb r1 "user") eqn:E2;
      [|destruct (String.eqb r1 "assistant") eqn:E3; [|discriminate]]];
  (destruct (String.eqb r2 "system") eqn:F1;
    [|destruct (String.eqb r2 "user") eqn:F2;
      [|destruct (String.eqb r2 "assistant") eqn:F3; [|discriminate]]]);
  intros [= <-] H; try discriminate H; injection H as <-;
  repeat match goal with
         | H : String.eqb _ _ = true |- _ => apply String.eqb_eq in H
         end; congruence.
Qed.

(** X12: the conversion loses nothing of a request whose roles are all
    among ["system"], ["user"] and ["assistant"]: it sends one message
    per inbound message, and two such requests with the same outbound
    list are the same request. *)
Theorem convert_messages_injective (r1 r2 : ChatRequest) :
  (forall m, In m (messages r1) -> recognised (role m) = true) ->
  (forall m, In m (messages r2) -> recognised (role m) = true) ->
  List.length (convert_messages r1) = List.length (messages r1)
  /\ (convert_messages r1 = convert_messages r2 -> r1 = r2).
Proof.
  destruct r1 as [l1], r2 as [l2]. rewrite !convert_messages_eq. simpl.
  intros H1 H2. split.
  - clear H2 l2. induction l1 as [|m l1 IH]; simpl; [reflexivity|].
    destruct (convert_message_some m) as [out ->]; [apply H1; now left|].
    simpl. f_equal. apply IH. intros m' Hm'. apply H1. now right.
  - intros Heq. f_equal. revert l2 H2 Heq.
    induction l1 as [|m l1 IH]; intros [|m' l2] H2 Heq; simpl in Heq.
    + reflexivity.
    + destruct (convert_message_some m') as [out Hout]; [apply H2; now left|].
      rewrite Hout in Heq. discriminate.
    + destruct (convert_message_some m) as [out Hout]; [apply H1; now left|].
      rewrite Hout in Heq. discriminate.
    + destruct (convert_message_some m) as [out Hout]; [apply H1; now left|].
      destruct (convert_message_some m') as [out' Hout']; [apply H2; now left|].
      rewrite Hout, Hout' in Heq. simpl in Heq. injection Heq as <- Heq.
      rewrite (convert_message_inj m m' out Hout Hout'). f_equal.
      apply IH; [intros x Hx; apply H1; now right | | exact Heq].
      intros x Hx. apply H2. now right.
Qed.

(** A request of two recognised messages sends two messages, and two
    requests that differ in a content send different lists. *)
Lemma convert_messages_injective_witness :
  let r1 := mkChatRequest [mkChatMessage "system" "You are an NBA expert";
                           mkChatMessage "user" "Who won the 2020 finals?"] in
  let r2 := mkChatRequest [mkChatMessage "system" "You are an NBA expert";
                           mkChatMessage "user" "Who won the 2021 finals?"] in
  List.length (convert_messages r1) = 2%nat
  /\ convert_messages r1 <> convert_messages r2.
Proof.
  intros r1 r2.
  assert (H1 : forall m, In m (messages r1) -> recognised (role m) = true).
  { intros m [<- | [<- | []]]; reflexivity. }
  assert (H2 : forall m, In m (messages r2) -> recognised (role m) = true).
  { intros m [<- | [<- | []]]; reflexivity. }
  destruct (convert_messages_injective r1 r2 H1 H2) as [Hlen Hinj].
  split; [exact Hlen|]. intros Heq. specialize (Hinj Heq). discriminate Hinj.
Defined.

(** X13: the roles of the outbound messages, read under the key
    ["role"], are the recognised roles of the inbound messages in the
    inbound order; so the relay never sends more messages than it
    received, and sends as many as it received less those of another
    role. *)
Theorem convert_messages_roles (request : ChatRequest) :
  map (fun out => Py.getitem out (Py.AtKey "role")) (convert_messages request)
  = map (fun r => Value (PStr r))
        (filter recognised (map role (messages request)))
  /\ List.length (convert_messages request)
     = List.length (filter (fun m => recognised (role m)) (messages request))
  /\ (List.length (convert_messages request)
      <= List.length (messages request))%nat.
Proof.
  rewrite convert_messages_eq. destruct request as [l]. simpl.
  assert (Hstep : forall m,
            recognised (role m) = false /\ convert_message m = None
            \/ recognised (role m) = true
               /\ exists out, convert_message m = Some out
                  /\ Py.getitem out (Py.AtKey "role") = Value (PStr (role m))).
  { intros m. unfold recognised, convert_message.
    destruct (String.eqb (role m) "system") eqn:E1.
    { right. split; [reflexivity|]. eexists. split; [reflexivity|].
      apply String.eqb_eq in E1. now rewrite E1. }
    destruct (String.eqb (role m) "user") eqn:E2.
    { right. split; [reflexivity|]. eexists. split; [reflexivity|].
      apply String.eqb_eq in E2. now rewrite E2. }
    destruct (String.eqb (role m) "assistant") eqn:E3.
    { right. split; [reflexivity|]. eexists. split; [reflexivity|].
      apply String.eqb_eq in E3. now rewrite E3. }
    now left. }
  induction l as [|m l (IH1 & IH2 & IH3)]; simpl; [now repeat split|].
  destruct (Hstep m) as [[Hr Hc] | [Hr (out & Hc & Hrole)]];
    rewrite Hr, Hc; simpl.
  - repeat split; [exact IH1 | exact IH2 | lia].
  - rewrite Hrole, IH1, IH2. repeat split. lia.
Qed.

(** ** The calls of the chat endpoint *)

(** The runs that reach the service: the calls made, and how the world
    answered each of them. *)
Lemma chat_reaches_service (py_str : pyobj -> string)
    (validate_non_str : pyobj -> Result string) (w : World)
    (request : ChatRequest) (resp : Response ChatResponse)
    (made : list Call) :
  chat py_str validate_non_str w request = (resp, made) ->
  (exists model msgs, In (ModelChat model msgs) made)
  \/ (exists body, resp = Ok body) ->
  exists url api_key credentials client project_id model,
    made = relay_calls url api_key credentials client project_id model
             (convert_messages request)
    /\ w [] (Getenv "WATSONX_URL") = Value url
    /\ w (firstn 1 made) (Getenv "WATSONX_API_KEY") = Value api_key
    /\ w (firstn 2 made) (NewCredentials url api_key) = Value credentials
    /\ w (firstn 3 made) (NewAPIClient credentials) = Value client
    /\ w (firstn 4 made) (Getenv "WATSONX_PROJECT_ID") = Value project_id
    /\ w (firstn 5 made)
         (NewModelInference "ibm/granite-3-8b-instruct" client
            (PDict [("max_tokens", PInt 500); ("temperature", PFloat "0.7")])
            project_id PNone false) = Value model
    /\ resp = response_of
                match w (firstn 6 made)
                        (ModelChat model (convert_messages request)) with
                | Value reply => reply_outcome py_str validate_non_str reply
                | Raised e => Raised e
                end.
Proof.
  unfold chat, chat_try, get_watsonx_client, call.
  cbn [run bind_prog app lift].
  do 6 (answer w;
        [| intros [= <- <-] [(model & msgs & Hin) | (body & Hb)];
           [ simpl in Hin;
             repeat (destruct Hin as [Hin|Hin]; try discriminate Hin);
             contradiction
           | discriminate Hb ] ]).
  intros H _.
  exists a, a0, a1, a2, a3, a4.
  assert (Hmade : made = relay_calls a a0 a1 a2 a3 a4 (convert_messages request)).
  { revert H. answer w.
    - destruct (extract_text py_str a5) as [t|e]; cbn [lift bind_prog run].
      + destruct (make_ChatResponse validate_non_str t); cbn [lift run];
          now intros [= _ <-].
      + now intros [= _ <-].
    - now intros [= _ <-]. }
  subst made. cbn [firstn relay_calls].
  repeat (split; [first [reflexivity | assumption]|]).
  apply (f_equal fst) in H. cbn [fst] in H. rewrite <- H.
  unfold response_of, reply_outcome. answer w; [|reflexivity].
  destruct (extract_text py_str a5) as [t|e];
    cbn [lift bind_prog run bind_result fst]; [|reflexivity].
  now destruct (make_ChatResponse validate_non_str t).
Qed.

(** X14: whenever the handler calls the service, it has made exactly six
    calls before, in this order: it read [WATSONX_URL] and
    [WATSONX_API_KEY], constructed the credentials from the two values
    read and the client from the credentials, read [WATSONX_PROJECT_ID],
    and constructed the model from the client, the project id read, the
    fixed model id and parameters and [verify=False]; the service is
    called on that model with the converted messages, and no call
    follows. *)
Theorem chat_calls_in_order (py_str : pyobj -> string)
    (validate_non_str : pyobj -> Result string) (w : World)
    (request : ChatRequest) (resp : Response ChatResponse)
    (made : list Call) (model : pyobj) (msgs : list pyobj) :
  chat py_str validate_non_str w request = (resp, made) ->
  In (ModelChat model msgs) made ->
  exists url api_key credentials client project_id,
    made = relay_calls url api_key credentials client project_id model msgs
    /\ msgs = convert_messages request
    /\ w [] (Getenv "WATSONX_URL") = Value url
    /\ w (firstn 1 made) (Getenv "WATSONX_API_KEY") = Value api_key
    /\ w (firstn 2 made) (NewCredentials url api_key) = Value credentials
    /\ w (firstn 3 made) (NewAPIClient credentials) = Value client
    /\ w (firstn 4 made) (Getenv "WATSONX_PROJECT_ID") = Value project_id
    /\ w (firstn 5 made)
         (NewModelInference "ibm/granite-3-8b-instruct" client
            (PDict [("max_tokens", PInt 500); ("temperature", PFloat "0.7")])
            project_id PNone false) = Value model.
Proof.
  intros Hchat Hin.
  destruct (chat_reaches_service _ _ _ _ _ _ Hchat)
    as (url & api_key & credentials & client & project_id & model' & Hmade
        & H1 & H2 & H3 & H4 & H5 & H6 & _);
    [left; now exists model, msgs|].
  assert (Hm : model = model' /\ msgs = convert_messages request).
  { rewrite Hmade in Hin. simpl in Hin.
    repeat (destruct Hin as [Hin|Hin]; try discriminate Hin);
      [|contradiction].
    injection Hin as <- <-. now split. }
  destruct Hm as [<- ->].
  exists url, api_key, credentials, client, project_id.
  repeat (split; [first [reflexivity | assumption]|]). exact H6.
Qed.

(** X15: the handler returns a body only when the service was called and
    replied and the text read from the reply is the body's: a run that
    returns [Ok] made the seven calls, the last one to the service, and
    its body is the outcome of reading the reply; and a run whose call to
    the service is answered with a reply from which a text is read
    returns that text. *)
Theorem chat_ok_iff_reply_read (py_str : pyobj -> string)
    (validate_non_str : pyobj -> Result string) (w : World)
    (request : ChatRequest) (resp : Response ChatResponse)
    (made : list Call) (body : ChatResponse) :
  chat py_str validate_non_str w request = (resp, made) ->
  (resp = Ok body
   <-> exists before model reply,
         made = (before ++ [ModelChat model (convert_messages request)])%list
         /\ List.length before = 6%nat
         /\ w before (ModelChat model (convert_messages request)) = Value reply
         /\ reply_outcome py_str validate_non_str reply = Value body).
Proof.
  intros Hchat. split.
  - intros Hok.
    destruct (chat_reaches_service _ _ _ _ _ _ Hchat)
      as (url & api_key & credentials & client & project_id & model & Hmade
          & _ & _ & _ & _ & _ & _ & Hresp);
      [right; now exists body|].
    exists (firstn 6 made), model.
    rewrite Hok in Hresp.
    destruct (w (firstn 6 made) (ModelChat model (convert_messages request)))
      as [reply|e]; [|discriminate Hresp].
    exists reply. rewrite Hmade. cbn [firstn relay_calls app].
    repeat split.
    destruct (reply_outcome py_str validate_non_str reply);
      simpl in Hresp; congruence.
  - intros (before & model & reply & Hmade & _ & Hw & Hout).
    rewrite (proj2 (proj2 (chat_run _ _ _ _ _ _ Hchat))
               before model _ reply Hmade Hw).
    now rewrite Hout.
Qed.

(** In a world where every call succeeds the seven calls are made, with
    the values the world returned. *)
Lemma chat_calls_in_order_witness :
  let request := mkChatRequest [mkChatMessage "user" "hi"] in
  let w := world_replying (PStr "hello") in
  let run := chat str_as_type_name refuse_non_str w request in
  snd run
  = relay_calls (PStr "configured") (PStr "configured")
      (PObject "Credentials" [] None) (PObject "APIClient" [] None)
      (PStr "configured") (PObject "ModelInference" [] None)
      (convert_messages request).
Proof.
  intros request w run.
  destruct (chat_calls_in_order str_as_type_name refuse_non_str w request
              (fst run) (snd run) (PObject "ModelInference" [] None)
              (convert_messages request))
    as (url & api_key & credentials & client & project_id & Hmade & _
        & H1 & H2 & H3 & H4 & H5 & _).
  - apply surjective_pairing.
  - simpl. do 6 right. left. reflexivity.
  - rewrite Hmade.
    injection H1 as <-. injection H2 as <-. injection H3 as <-.
    injection H4 as <-. injection H5 as <-. reflexivity.
Defined.

(** The service replies a text rendered by the third tier: the handler
    returns it, after seven calls. *)
Lemma chat_ok_iff_reply_read_witness :
  let request := mkChatRequest [mkChatMessage "user" "hi"] in
  let w := world_replying (PStr "hello") in
  let run := chat str_as_type_name refuse_non_str w request in
  fst run = Ok (mkChatResponse "hello")
  /\ List.length (snd run) = 7%nat.
Proof.
  intros request w run.
  pose proof (chat_ok_iff_reply_read str_as_type_name refuse_non_str w
                request (fst run) (snd run) (mkChatResponse "hello")
                (surjective_pairing run)) as [Hto Hfrom].
  assert (Hok : fst run = Ok (mkChatResponse "hello")).
  { apply Hfrom.
    exists (firstn 6 (snd run)), (PObject "ModelInference" [] None),
      (PStr "hello").
    repeat split. }
  split; [exact Hok|].
  destruct (Hto Hok) as (before & model & reply & Hmade & Hlen & _).
  rewrite Hmade, length_app, Hlen. reflexivity.
Defined.

(** ** Replies with an empty or a broken list of choices *)

(** X16: the first tier asks for a non-empty [choices] and the second
    does not.  An object that is not a [dict] and whose [choices]
    attribute is the empty list is rendered as a whole; a [dict] whose
    ['choices'] is the empty list makes the second tier raise
    [IndexError], and the endpoint answers 500 with its text; a [dict]
    whose first choice is a [dict] without ['message'] makes it raise
    [KeyError]. *)
Theorem extract_text_empty_choices (py_str : pyobj -> string) :
  (forall cls attrs,
     Py.lookup "choices" attrs = Some (PList []) ->
     extract_text py_str (PObject cls attrs None)
     = Value (PStr (py_str (PObject cls attrs None))))
  /\ (forall entries,
        Py.lookup "choices" entries = Some (PList []) ->
        extract_text py_str (PDict entries)
        = Raised (mkException "IndexError" "list index out of range"))
  /\ (forall entries first rest,
        Py.lookup "choices" entries = Some (PList (PDict first :: rest)) ->
        Py.lookup "message" first = None ->
        extract_text py_str (PDict entries)
        = Raised (mkException "KeyError" "'message'"))
  /\ (forall validate_non_str w request resp made before model msgs entries,
        chat py_str validate_non_str w request = (resp, made) ->
        made = (before ++ [ModelChat model msgs])%list ->
        w before (ModelChat model msgs) = Value (PDict entries) ->
        Py.lookup "choices" entries = Some (PList []) ->
        resp = HTTPException 500 "Chat error: list index out of range").
Proof.
  assert (Hempty : forall entries,
            Py.lookup "choices" entries = Some (PList []) ->
            extract_text py_str (PDict entries)
            = Raised (mkException "IndexError" "list index out of range")).
  { intros entries H.
    unfold extract_text, has_choices, is_choices_dict, content_by_key.
    cbn [Py.hasattr bind_result Py.isinstance_dict Py.has_key Py.getitem andb].
    rewrite H. reflexivity. }
  split; [|split; [exact Hempty|split]].
  - intros cls attrs H.
    unfold extract_text, has_choices, is_choices_dict.
    cbn [Py.hasattr Py.getattr]. rewrite H. reflexivity.
  - intros entries first rest H Hm.
    unfold extract_text, has_choices, is_choices_dict, content_by_key.
    cbn [Py.hasattr bind_result Py.isinstance_dict Py.has_key Py.getitem andb].
    rewrite H. cbn [bind_result]. unfold Py.at_position. simpl.
    rewrite Hm. reflexivity.
  - intros validate_non_str w request resp made before model msgs entries
      Hchat Hmade Hw H.
    rewrite (proj2 (proj2 (chat_run _ _ _ _ _ _ Hchat))
               before model msgs _ Hmade Hw).
    unfold reply_outcome. now rewrite (Hempty entries H).
Qed.

(** The two replies with no choice, as an object and as a [dict], and a
    [dict] whose choice has no message. *)
Lemma extract_text_empty_choices_witness :
  let object := PObject "ChatCompletion" [("choices", PList [])] None in
  let mapping := PDict [("id", PStr "r1"); ("choices", PList [])] in
  extract_text str_as_type_name object = Value (PStr "<ChatCompletion>")
  /\ extract_text str_as_type_name mapping
     = Raised (mkException "IndexError" "list index out of range")
  /\ extract_text str_as_type_name
       (PDict [("choices", PList [PDict [("text", PStr "hi")]])])
     = Raised (mkException "KeyError" "'message'")
  /\ fst (chat str_as_type_name refuse_non_str (world_replying mapping)
               (mkChatRequest [mkChatMessage "user" "hi"]))
     = HTTPException 500 "Chat error: list index out of range".
Proof.
  intros object mapping.
  pose proof (extract_text_empty_choices str_as_type_name)
    as (Hobj & Hmap & Hkey & Hchat).
  split; [apply (Hobj "ChatCompletion" [("choices", PList [])]); reflexivity|].
  split; [apply (Hmap [("id", PStr "r1"); ("choices", PList [])]);
          reflexivity|].
  split; [apply (Hkey [("choices", PList [PDict [("text", PStr "hi")]])]
                   [("text", PStr "hi")] []); reflexivity|].
  set (run := chat str_as_type_name refuse_non_str (world_replying mapping)
                (mkChatRequest [mkChatMessage "user" "hi"])).
  eapply (Hchat refuse_non_str (world_replying mapping) _ (fst run) (snd run)
            (firstn 6 (snd run)) _ _ _ (surjective_pairing run));
    reflexivity.
Defined.

(** ** What the game search reads of a game *)

(** X17: [search_games] reads of a game the concatenation of its two
    lower-cased team names, and its date: two games with the same date
    and the same concatenation of lower-cased names, wherever the
    boundary between the two names falls and whatever their locations,
    pass the same filters; so do, on ASCII texts, two games with the same
    date whose concatenated names are the same up to the case of the
    letters. *)
Theorem game_match_reads_concatenation {cm : CaseMapping}
    (t d : option string) (g g' : Game) :
  date g = date g' ->
  (str_lower (team1 g) ++ str_lower (team2 g)
   = str_lower (team1 g') ++ str_lower (team2 g') ->
   game_match t d g = game_match t d g')
  /\ (CaseLaws cm ->
      Text.is_ascii (team1 g) = true -> Text.is_ascii (team2 g) = true ->
      Text.is_ascii (team1 g') = true -> Text.is_ascii (team2 g') = true ->
      Text.case_variant (team1 g ++ team2 g) (team1 g' ++ team2 g') = true ->
      game_match t d g = game_match t d g').
Proof.
  intros Hdate.
  assert (Hfold : str_lower (team1 g) ++ str_lower (team2 g)
                  = str_lower (team1 g') ++ str_lower (team2 g') ->
                  game_match t d g = game_match t d g').
  { intros Hnames. unfold game_match. now rewrite Hnames, Hdate. }
  split; [exact Hfold|].
  intros laws H1 H2 H1' H2' Hvar. apply Hfold.
  rewrite (lower_ascii cm laws _ H1), (lower_ascii cm laws _ H2),
    (lower_ascii cm laws _ H1'), (lower_ascii cm laws _ H2').
  rewrite <- !TextFacts.lower_app.
  now apply TextFacts.case_variant_lower.
Qed.

(** The same letters split at another place and played elsewhere. *)
Lemma game_match_reads_concatenation_witness :
  let cm := ascii_case in
  let g := mkGame "Thunderwar" "riors United" "Oct 21" "Tulsa" in
  let g' := mkGame "THUNDER" "WARRIORS UNITED" "Oct 21" "Oakland" in
  game_match (Some "warriors") (Some "Oct 21") g
  = game_match (Some "warriors") (Some "Oct 21") g'
  /\ game_match (Some "united") None g = game_match (Some "united") None g'.
Proof.
  intros cm g g'. split.
  - apply (proj1 (game_match_reads_concatenation (cm := cm)
                    (Some "warriors") (Some "Oct 21") g g' eq_refl)).
    reflexivity.
  - apply (proj2 (game_match_reads_concatenation (cm := cm)
                    (Some "united") None g g' eq_refl) ascii_case_laws);
      reflexivity.
Defined.
